(** * Proxy-group resolution: a shallow embedding of
      [adapter/outboundgroup/parser.go]

    The Go function [ParseProxyGroup] turns one group description into
    a group adapter.  It reads the endpoint registry ([proxyMap]), reads
    and writes the provider registry ([providersMap]) and, through
    [RegisterProvidersInUse], writes into the provider objects the
    registry points to.  The embedding threads both pieces of mutable
    state explicitly and returns the state together with the Go result
    pair, so that what a failed call leaves behind can be stated. *)

From Stdlib Require Import ZArith String Ascii List Lia.
From stdpp Require Import base option list strings gmap fin_maps.

Open Scope string_scope.
Open Scope list_scope.
Open Scope stdpp_scope.

(** ** Go errors

    [errors.New] makes a leaf; [fmt.Errorf] makes a node that carries the
    formatted text and, when the format has a [%w] verb, the operand it
    wraps.  [Error] is the Go method of that name, [errors_Is] is
    [errors.Is].  Go compares error values by identity; here the package
    level sentinels have pairwise distinct texts, so structural equality
    tells them apart just as well. *)

Inductive error : Type :=
| errors_New (text : string)
| fmt_Errorf (text : string)
| fmt_Errorf_w (text : string) (wrapped : error).

#[global] Instance error_eq_dec : EqDecision error.
Proof. solve_decision. Defined.

Definition Error (e : error) : string :=
  match e with
  | errors_New t => t
  | fmt_Errorf t => t
  | fmt_Errorf_w t _ => t
  end.

Fixpoint errors_Is (err target : error) : bool :=
  if decide (err = target) then true
  else match err with
       | fmt_Errorf_w _ w => errors_Is w target
       | _ => false
       end.

(* parser.go:15-21 *)
Definition errFormat : error := errors_New "format error".
Definition errType : error := errors_New "unsupported type".
Definition errMissProxy : error := errors_New "`use` or `proxies` missing".
Definition errMissHealthCheck : error := errors_New "`url` or `interval` missing".
Definition errDuplicateProvider : error := errors_New "duplicate provider name".

(** The formats used by the parser. *)

(* fmt.Errorf("%s: %w", groupName, err) *)
Definition wrap_with_name (groupName : string) (err : error) : error :=
  fmt_Errorf_w (groupName +:+ ": " +:+ Error err) err.

(* fmt.Errorf("%s: invalid filter regex: %w", groupName, err) *)
Definition wrap_filter (groupName : string) (err : error) : error :=
  fmt_Errorf_w (groupName +:+ ": invalid filter regex: " +:+ Error err) err.

(* fmt.Errorf("%s %w: %s", groupName, errType, groupOption.Type) *)
Definition unsupported_type (groupName type : string) : error :=
  fmt_Errorf_w (groupName +:+ " " +:+ Error errType +:+ ": " +:+ type) errType.

(* fmt.Errorf("'%s' not found", name) *)
Definition not_found (name : string) : error :=
  fmt_Errorf ("'" +:+ name +:+ "' not found").

(* fmt.Errorf("proxy group %s can't contains in `use`", name) *)
Definition cant_contain (name : string) : error :=
  fmt_Errorf ("proxy group " +:+ name +:+ " can't contains in `use`").

(** ** Configuration records *)

(** A value of Go's [any] as it occurs in a decoded configuration. *)
#[warnings="-register-all"]
Inductive any : Type :=
| VString (s : string)
| VInt (z : Z)
| VBool (b : bool)
| VList (l : list any).

(* map[string]any *)
Abbreviation Config := (gmap string any).

(* parser.go:23-35.  The embedded outbound.BasicOption is declared in
   another package and never read by the parser; it is left out. *)
Record GroupCommonOption : Type := mkGroupCommonOption {
  Name : string;
  Type_ : string;
  Proxies : list string;
  Use : list string;
  URL : string;
  Interval : Z;
  Lazy : bool;
  DisableUDP : bool;
  DisableDNS : bool;
  Filter : string
}.

(* &GroupCommonOption{Lazy: true}, parser.go:44-46 *)
Definition defaultGroupOption : GroupCommonOption :=
  mkGroupCommonOption "" "" [] [] "" 0 true false false "".

(* Go's conversion uint(x) of an int on a 64-bit platform. *)
Definition uint (x : Z) : Z := x mod 2 ^ 64.

(* A *provider.ProxySetProvider: the address of the provider object. *)
Abbreviation addr := positive.

Section Parser.

(** Handles the parser only passes around: endpoints ([C.Proxy]),
    compiled patterns ([*regexp.Regexp]) and the options of the
    latency-ranked variant. *)
Context {Proxy Regexp URLTestOption : Type}.

(** ** Health checks, providers, adapters *)

(* provider.NewHealthCheck(proxies, url, interval, lazy) stores its four
   arguments. *)
Record HealthCheck : Type := NewHealthCheck {
  hc_proxies : list Proxy;
  hc_url : string;
  hc_interval : Z;
  hc_lazy : bool
}.

(** A [types.ProxyProvider] interface value.  The three dynamic types are
    the ones parser.go names: [*provider.ProxySetProvider] (the dynamic
    pool, the target of the type assertion at line 158), the result of
    [provider.NewCompatibleProvider] (a group's inline endpoints) and the
    result of [provider.NewProxyFilterProvider] (a derived provider).  A
    pool is shared and mutated, so it is an address; the other two are
    built by the parser and never modified afterwards. *)
Inductive ProxyProvider : Type :=
| ProxySetProvider (pp : addr)
| CompatibleProvider (name : string) (proxies : list Proxy) (hc : HealthCheck)
| ProxyFilterProvider (name : string) (psd : addr) (hc : HealthCheck)
                      (filter : option Regexp).

(* The health-check policy a provider was built with by the parser. *)
Definition provider_healthCheck (p : ProxyProvider) : option HealthCheck :=
  match p with
  | ProxySetProvider _ => None
  | CompatibleProvider _ _ hc => Some hc
  | ProxyFilterProvider _ _ hc _ => Some hc
  end.

(** The mutable state: the registry and, for every pool, the list its
    [RegisterProvidersInUse] has collected. *)
Record Store : Type := mkStore {
  providersMap : gmap string ProxyProvider;
  providersInUse : gmap addr (list ProxyProvider)
}.

Definition dependents (s : Store) (pp : addr) : list ProxyProvider :=
  default [] (providersInUse s !! pp).

(** Modelled from the spec: [RegisterProvidersInUse] (package provider,
    not in this file) "register[s] the derived provider as a dependent of
    its source provider"; the pool keeps "a lookup of dependents". *)
Definition RegisterProvidersInUse (pp : addr) (fp : ProxyProvider)
    (s : Store) : Store :=
  mkStore (providersMap s)
          (<[pp := dependents s pp ++ [fp]]> (providersInUse s)).

(** Modelled from the spec: the five variant constructors (files of this
    package that are not part of the parser) "hold" the options and the
    ordered providers they are given, plus the variant's extra
    parameter. *)
Inductive ProxyAdapter : Type :=
| URLTest (option : GroupCommonOption) (providers : list ProxyProvider)
          (opts : list URLTestOption)
| Selector (option : GroupCommonOption) (providers : list ProxyProvider)
| Fallback (option : GroupCommonOption) (providers : list ProxyProvider)
| LoadBalance (option : GroupCommonOption) (providers : list ProxyProvider)
              (strategy : string)
| Relay (option : GroupCommonOption) (providers : list ProxyProvider).

Definition adapter_providers (a : ProxyAdapter) : list ProxyProvider :=
  match a with
  | URLTest _ ps _ => ps
  | Selector _ ps => ps
  | Fallback _ ps => ps
  | LoadBalance _ ps _ => ps
  | Relay _ ps => ps
  end.

(** ** Collaborators

    Functions of other packages, or of other files of this package, that
    [ParseProxyGroup] calls.  Their code is not part of the parser; the
    parser is verified for every behaviour they may have.  A constructor
    that can fail is given by the error it reports, if any. *)
Class Collaborators : Type := {
  (* decoder.Decode(config, groupOption): fills the given record *)
  structure_Decode : Config -> GroupCommonOption -> error + GroupCommonOption;
  (* regexp.Compile *)
  regexp_Compile : string -> error + Regexp;
  (* the error of provider.NewCompatibleProvider(name, proxies, hc) *)
  NewCompatibleProvider_err : string -> list Proxy -> HealthCheck -> option error;
  parseURLTestOption : Config -> list URLTestOption;
  parseStrategy : Config -> string;
  (* the error of NewLoadBalance(option, providers, strategy) *)
  NewLoadBalance_err :
    GroupCommonOption -> list ProxyProvider -> string -> option error
}.

Context `{Collaborators}.

Definition NewCompatibleProvider (name : string) (proxies : list Proxy)
    (hc : HealthCheck) : error + ProxyProvider :=
  match NewCompatibleProvider_err name proxies hc with
  | Some err => inl err
  | None => inr (CompatibleProvider name proxies hc)
  end.

Definition NewLoadBalance (option : GroupCommonOption)
    (providers : list ProxyProvider) (strategy : string)
    : error + ProxyAdapter :=
  match NewLoadBalance_err option providers strategy with
  | Some err => inl err
  | None => inr (LoadBalance option providers strategy)
  end.

(** ** The parser *)

(* parser.go:133-143.  [names] is the parameter the source calls list,
   [ps] the slice built so far. *)
Fixpoint getProxies_loop (mapping : gmap string Proxy) (names : list string)
    (ps : list Proxy) : error + list Proxy :=
  match names with
  | [] => inr ps
  | name :: rest =>
      match mapping !! name with
      | None => inl (not_found name)
      | Some p => getProxies_loop mapping rest (ps ++ [p])
      end
  end.

Definition getProxies (mapping : gmap string Proxy) (names : list string)
    : error + list Proxy :=
  getProxies_loop mapping names [].

(* parser.go:175-188 *)
Definition newHealthCheck (ps : list Proxy) (groupOption : GroupCommonOption)
    : error + HealthCheck :=
  if String.eqb (Type_ groupOption) "select"
     || String.eqb (Type_ groupOption) "relay"
  then inr (NewHealthCheck ps "" 0 true)
  else if String.eqb (URL groupOption) "" || (Interval groupOption =? 0)%Z
       then inl errMissHealthCheck
       else inr (NewHealthCheck ps (URL groupOption)
                   (uint (Interval groupOption)) (Lazy groupOption)).

(* parser.go:145-173.  The loop runs over groupOption.Use; [use] is what
   is left of it, [ps] the slice built so far.  The pool objects live in
   the store, which every iteration may extend. *)
Fixpoint getProviders_loop (groupOption : GroupCommonOption)
    (filterRegx : option Regexp) (use : list string)
    (ps : list ProxyProvider) (s : Store)
    : (error + list ProxyProvider) * Store :=
  match use with
  | [] => (inr ps, s)
  | name :: rest =>
      match providersMap s !! name with
      | None => (inl (not_found name), s)
      | Some (ProxySetProvider pp) =>
          match newHealthCheck [] groupOption with
          | inl err => (inl err, s)
          | inr hc =>
              let fpName := name +:+ "-in-" +:+ Name groupOption in
              let fp := ProxyFilterProvider fpName pp hc filterRegx in
              getProviders_loop groupOption filterRegx rest (ps ++ [fp])
                (RegisterProvidersInUse pp fp s)
          end
      | Some _ => (inl (cant_contain name), s)
      end
  end.

Definition getProviders (groupOption : GroupCommonOption)
    (filterRegx : option Regexp) (s : Store)
    : (error + list ProxyProvider) * Store :=
  getProviders_loop groupOption filterRegx (Use groupOption) [] s.

(** [ParseProxyGroup] is one Go function; its four blocks are given
    one definition each, so that statements can name the step at which a
    call stops.  A Go [return nil, err] is an [inl err] that the later
    blocks pass on untouched; the store travels with it, so the writes
    made before the return stay visible to the caller. *)

(* parser.go:61-67: the pattern is compiled only when it is not empty;
   a nil *regexp.Regexp is [None]. *)
Definition compileFilter (groupOption : GroupCommonOption)
    : error + option Regexp :=
  if String.eqb (Filter groupOption) "" then inr None
  else match regexp_Compile (Filter groupOption) with
       | inl err => inl (wrap_filter (Name groupOption) err)
       | inr regx => inr (Some regx)
       end.

(* parser.go:73-97: the inline endpoints.  Yields the slice [providers]
   as it stands at line 98. *)
Definition inlineProviders (groupOption : GroupCommonOption)
    (proxyMap : gmap string Proxy) (s : Store)
    : (error + list ProxyProvider) * Store :=
  let groupName := Name groupOption in
  if negb (length (Proxies groupOption) =? 0)%nat then
    match getProxies proxyMap (Proxies groupOption) with
    | inl err => (inl (wrap_with_name groupName err), s)
    | inr ps =>
    match providersMap s !! groupName with
    | Some _ => (inl (wrap_with_name groupName errDuplicateProvider), s)
    | None =>
    match newHealthCheck ps groupOption with
    | inl err => (inl (wrap_with_name groupName err), s)
    | inr hc =>
    match NewCompatibleProvider groupName ps hc with
    | inl err => (inl (wrap_with_name groupName err), s)
    | inr pd =>
        (inr ([] ++ [pd]),
         mkStore (<[groupName := pd]> (providersMap s)) (providersInUse s))
    end end end end
  else (inr [], s).

(* parser.go:99-110: the referenced providers, merged with [providers]. *)
Definition mergeProviders (groupOption : GroupCommonOption)
    (filterRegx : option Regexp) (providers : list ProxyProvider) (s : Store)
    : (error + list ProxyProvider) * Store :=
  if negb (length (Use groupOption) =? 0)%nat then
    match getProviders groupOption filterRegx s with
    | (inl err, s') => (inl (wrap_with_name (Name groupOption) err), s')
    | (inr list, s') =>
        (inr (if String.eqb (Type_ groupOption) "fallback"
              then list ++ providers
              else providers ++ list), s')
    end
  else (inr providers, s).

(* parser.go:112-130: the switch on groupOption.Type. *)
Definition dispatch (config : Config) (groupOption : GroupCommonOption)
    (providers : list ProxyProvider) : error + ProxyAdapter :=
  if String.eqb (Type_ groupOption) "url-test" then
    inr (URLTest groupOption providers (parseURLTestOption config))
  else if String.eqb (Type_ groupOption) "select" then
    inr (Selector groupOption providers)
  else if String.eqb (Type_ groupOption) "fallback" then
    inr (Fallback groupOption providers)
  else if String.eqb (Type_ groupOption) "load-balance" then
    NewLoadBalance groupOption providers (parseStrategy config)
  else if String.eqb (Type_ groupOption) "relay" then
    inr (Relay groupOption providers)
  else inl (unsupported_type (Name groupOption) (Type_ groupOption)).

(* parser.go:37-131 *)
Definition ParseProxyGroup (config : Config) (proxyMap : gmap string Proxy)
    (s : Store) : (error + ProxyAdapter) * Store :=
  match structure_Decode config defaultGroupOption with
  | inl _ => (inl errFormat, s)                                  (* 48-50 *)
  | inr groupOption =>
  if String.eqb (Type_ groupOption) "" || String.eqb (Name groupOption) ""
  then (inl errFormat, s)                                        (* 52-54 *)
  else
  match compileFilter groupOption with
  | inl err => (inl err, s)
  | inr filterRegx =>
  if (length (Proxies groupOption) =? 0)%nat
     && (length (Use groupOption) =? 0)%nat
  then (inl (wrap_with_name (Name groupOption) errMissProxy), s) (* 69-71 *)
  else
  match inlineProviders groupOption proxyMap s with
  | (inl err, s1) => (inl err, s1)
  | (inr providers, s1) =>
  match mergeProviders groupOption filterRegx providers s1 with
  | (inl err, s2) => (inl err, s2)
  | (inr providers, s2) => (dispatch config groupOption providers, s2)
  end end end end.

End Parser.

Arguments HealthCheck : clear implicits.
Arguments ProxyProvider : clear implicits.
Arguments Store : clear implicits.
Arguments ProxyAdapter : clear implicits.
Arguments Collaborators : clear implicits.

(** ** Vocabulary of the statements *)

Section Vocabulary.

Context {Proxy Regexp URLTestOption : Type}.
Context {collab : Collaborators Proxy Regexp URLTestOption}.

Implicit Types (groupOption : GroupCommonOption) (s : Store Proxy Regexp).
Implicit Types (proxyMap : gmap string Proxy) (config : Config).

(* [name] refers to a dynamic pool in the registry *)
Definition is_pool s (name : string) : Prop :=
  exists pp, providersMap s !! name = Some (ProxySetProvider pp).

(* [p] is the provider the deriver builds for the reference [name] *)
Definition derived_from groupOption (filterRegx : option Regexp) s
    (name : string) (p : ProxyProvider Proxy Regexp) : Prop :=
  exists pp hc,
    providersMap s !! name = Some (ProxySetProvider pp) /\
    newHealthCheck [] groupOption = inr hc /\
    p = ProxyFilterProvider (name +:+ "-in-" +:+ Name groupOption) pp hc
          filterRegx.

(* the pool a derived provider observes *)
Definition source_of (p : ProxyProvider Proxy Regexp) : option addr :=
  match p with
  | ProxyFilterProvider _ psd _ _ => Some psd
  | _ => None
  end.

(* The synthetic provider of a group and the store after registering it. *)
Definition synthetic groupOption (ps : list Proxy) (hc : HealthCheck Proxy)
    : ProxyProvider Proxy Regexp :=
  CompatibleProvider (Name groupOption) ps hc.

Definition registered groupOption (ps : list Proxy) (hc : HealthCheck Proxy)
    s : Store Proxy Regexp :=
  mkStore (<[Name groupOption := synthetic groupOption ps hc]>
             (providersMap s))
          (providersInUse s).

(* the order in which lines 105-109 merge the two lists *)
Definition merge_order groupOption
    (providers derived : list (ProxyProvider Proxy Regexp))
    : list (ProxyProvider Proxy Regexp) :=
  if String.eqb (Type_ groupOption) "fallback"
  then derived ++ providers
  else providers ++ derived.

(* the part of [ParseProxyGroup] after its four leading checks *)
Definition resolve config groupOption (filterRegx : option Regexp)
    proxyMap s
    : (error + ProxyAdapter Proxy Regexp URLTestOption) * Store Proxy Regexp :=
  match inlineProviders groupOption proxyMap s with
  | (inl err, s1) => (inl err, s1)
  | (inr providers, s1) =>
      match mergeProviders groupOption filterRegx providers s1 with
      | (inl err, s2) => (inl err, s2)
      | (inr providers, s2) => (dispatch config groupOption providers, s2)
      end
  end.

(* the name a provider built by the parser was given (lines 90, 167-168) *)
Definition name_of (p : ProxyProvider Proxy Regexp) : option string :=
  match p with
  | ProxySetProvider _ => None
  | CompatibleProvider name _ _ => Some name
  | ProxyFilterProvider name _ _ _ => Some name
  end.

(* the five strategy kinds of the switch at lines 113-128 *)
Definition known_kind (type : string) : Prop :=
  type = "url-test" \/ type = "select" \/ type = "fallback" \/
  type = "load-balance" \/ type = "relay".

(* whether a derived provider observes the pool [pp] *)
Definition observes (pp : addr) (p : ProxyProvider Proxy Regexp) : bool :=
  bool_decide (source_of p = Some pp).

End Vocabulary.

(** ** A concrete set of collaborators, to run the parser on examples *)

Module Example.

(* decimal digits of a numeric-looking string *)
Fixpoint digits (s : string) (acc : Z) : option Z :=
  match s with
  | EmptyString => Some acc
  | String c rest =>
      let n := nat_of_ascii c in
      if (48 <=? n)%nat && (n <=? 57)%nat
      then digits rest (10 * acc + Z.of_nat (n - 48))
      else None
  end.

Definition numeric (s : string) : option Z :=
  match s with
  | EmptyString => None
  | String "-" rest =>
      match rest with
      | EmptyString => None
      | _ => Z.opp <$> digits rest 0
      end
  | _ => digits s 0
  end.

Definition as_string (v : any) : option string :=
  match v with VString s => Some s | _ => None end.

Definition as_int (v : any) : option Z :=
  match v with
  | VInt z => Some z
  | VString s => numeric s
  | _ => None
  end.

Definition as_bool (v : any) : option bool :=
  match v with VBool b => Some b | _ => None end.

Definition as_strings (v : any) : option (list string) :=
  match v with
  | VList l => mapM as_string l
  | _ => None
  end.

(* a key tagged omitempty: absent keeps the value already in the record *)
Definition optional {A} (config : Config) (key : string)
    (conv : any -> option A) (old : A) : option A :=
  match config !! key with
  | None => Some old
  | Some v => conv v
  end.

Definition required {A} (config : Config) (key : string)
    (conv : any -> option A) : option A :=
  config !! key ≫= conv.

(** Modelled from the spec: the schema binder (package common/structure,
    not part of the parser).  "Unrecognized keys are ignored; recognized
    keys are coerced from loosely-typed input (e.g., numeric-looking
    strings accepted as integers) per this schema: name: string required,
    type: enum required, proxies: list<string> optional, use:
    list<string> optional, url: string optional, interval: integer
    optional, lazy: bool optional default=true, disable-udp: bool
    optional, disable-dns: bool optional, filter: string optional." *)
Definition Decode (config : Config) (dst : GroupCommonOption)
    : error + GroupCommonOption :=
  let bound :=
    name ← required config "name" as_string;
    type ← required config "type" as_string;
    proxies ← optional config "proxies" as_strings (Proxies dst);
    use ← optional config "use" as_strings (Use dst);
    url ← optional config "url" as_string (URL dst);
    interval ← optional config "interval" as_int (Interval dst);
    lazy ← optional config "lazy" as_bool (Lazy dst);
    disable_udp ← optional config "disable-udp" as_bool (DisableUDP dst);
    disable_dns ← optional config "disable-dns" as_bool (DisableDNS dst);
    filter ← optional config "filter" as_string (Filter dst);
    Some (mkGroupCommonOption name type proxies use url interval lazy
            disable_udp disable_dns filter) in
  match bound with
  | Some option => inr option
  | None => inl (fmt_Errorf "decode failed")
  end.

(* regexp.Compile on the patterns of the examples: Go rejects a lone
   opening parenthesis; every other pattern is kept as its text. *)
Definition Compile (pattern : string) : error + string :=
  if String.eqb pattern "("
  then inl (errors_New "error parsing regexp: missing closing ): `(`")
  else inr pattern.

(* Endpoints are known by a number, patterns by their text; no
   constructor fails. *)
#[export] Instance collaborators : Collaborators nat string Z := {|
  structure_Decode := Decode;
  regexp_Compile := Compile;
  NewCompatibleProvider_err := fun _ _ _ => None;
  parseURLTestOption := fun _ => [];
  parseStrategy := fun _ => "consistent-hashing";
  NewLoadBalance_err := fun _ _ _ => None
|}.

Definition groupConfig (name type : string) (proxies use : list string)
    (url : string) (interval : Z) : Config :=
  <["name" := VString name]> (<["type" := VString type]>
  (<["proxies" := VList (VString <$> proxies)]>
  (<["use" := VList (VString <$> use)]>
  (<["url" := VString url]> (<["interval" := VInt interval]> ∅))))).

Definition endpoints : gmap string nat :=
  <["A" := 1%nat]> (<["B" := 2%nat]> ∅).

(* a registry holding one dynamic pool, P, at address 7 *)
Definition registry : Store nat string :=
  mkStore (<["P" := ProxySetProvider 7%positive]> ∅) ∅.

(* the same registry after a group G with the inline proxy A was
   resolved: G is bound to that group's synthetic provider *)
Definition shared_registry : Store nat string :=
  mkStore (<["G" := CompatibleProvider "G" [1%nat]
                      (NewHealthCheck [1%nat] "" 0 true)]>
             (providersMap registry)) ∅.

(* what [Decode] makes of [groupConfig] *)
Definition groupOptionOf (name type : string) (proxies use : list string)
    (url : string) (interval : Z) : GroupCommonOption :=
  mkGroupCommonOption name type proxies use url interval true false false "".

(* a priority-ordered group with one inline proxy that refers to the
   pool P twice, what [Decode] makes of it and the adapter it resolves
   to against [endpoints] and [registry] *)
Definition fallback_config : Config :=
  groupConfig "g" "fallback" ["A"] ["P"; "P"] "http://x" 30.

Definition fallback_option : GroupCommonOption :=
  groupOptionOf "g" "fallback" ["A"] ["P"; "P"] "http://x" 30.

Definition fallback_adapter : ProxyAdapter nat string Z :=
  Fallback fallback_option
    [ProxyFilterProvider "P-in-g" 7%positive
       (NewHealthCheck [] "http://x" 30 true) None;
     ProxyFilterProvider "P-in-g" 7%positive
       (NewHealthCheck [] "http://x" 30 true) None;
     CompatibleProvider "g" [1%nat]
       (NewHealthCheck [1%nat] "http://x" 30 true)].

(* a registry with two dynamic pools, P at address 7 and R at address 8 *)
Definition two_pools : Store nat string :=
  mkStore (<["R" := ProxySetProvider 8%positive]> (providersMap registry)) ∅.

End Example.

(* evaluation of the parser on closed inputs *)
Ltac run := vm_compute; reflexivity.
Ltac found := repeat constructor; eexists; run.

(** * Properties *)

(** ** Texts and tests *)

Lemma prefix_append (a b : string) : String.prefix a (a +:+ b) = true.
Proof.
  apply String.prefix_correct.
  induction a as [|c a IH]; simpl.
  - destruct b; reflexivity.
  - rewrite IH. reflexivity.
Qed.

Lemma length_eqb_nil {A} (l : list A) :
  (length l =? 0)%nat = true <-> l = [].
Proof. destruct l; simpl; split; congruence. Qed.

Lemma length_eqb_cons {A} (l : list A) :
  (length l =? 0)%nat = false <-> l <> [].
Proof. destruct l; simpl; split; congruence. Qed.

Section Facts.

Context {Proxy Regexp URLTestOption : Type}.
Context {collab : Collaborators Proxy Regexp URLTestOption}.

Implicit Types (groupOption : GroupCommonOption) (s : Store Proxy Regexp).
Implicit Types (proxyMap : gmap string Proxy) (config : Config).

(** ** The endpoint resolver *)

Lemma getProxies_loop_ok (mapping : gmap string Proxy) (names : list string) :
  forall acc ps,
    getProxies_loop mapping names acc = inr ps ->
    exists qs, ps = acc ++ qs /\
               Forall2 (fun name p => mapping !! name = Some p) names qs.
Proof.
  induction names as [|name rest IH]; intros acc ps Hrun; simpl in Hrun.
  - exists []. split; [rewrite app_nil_r; congruence | constructor].
  - destruct (mapping !! name) as [p|] eqn:Hname; [|discriminate].
    destruct (IH _ _ Hrun) as (qs & -> & Hqs).
    exists (p :: qs). split.
    + rewrite <- app_assoc. reflexivity.
    + constructor; assumption.
Qed.

Lemma getProxies_loop_found (mapping : gmap string Proxy) (names : list string) :
  Forall (fun name => is_Some (mapping !! name)) names ->
  forall acc, exists ps, getProxies_loop mapping names acc = inr ps.
Proof.
  induction 1 as [|name rest [p Hp] _ IH]; intros acc; simpl.
  - eauto.
  - rewrite Hp. apply IH.
Qed.

Lemma getProxies_loop_missing (mapping : gmap string Proxy)
    (before : list string) (name : string) (after : list string) :
  Forall (fun x => is_Some (mapping !! x)) before ->
  mapping !! name = None ->
  forall acc,
    getProxies_loop mapping (before ++ name :: after) acc
    = inl (not_found name).
Proof.
  intros Hbefore Hname.
  induction Hbefore as [|x rest [p Hp] _ IH]; intros acc; simpl.
  - rewrite Hname. reflexivity.
  - rewrite Hp. apply IH.
Qed.

Lemma getProxies_nonempty (mapping : gmap string Proxy) (names : list string)
    (ps : list Proxy) :
  getProxies mapping names = inr ps -> length ps = length names.
Proof.
  intros Hrun. destruct (getProxies_loop_ok _ _ _ _ Hrun) as (qs & -> & Hqs).
  simpl. symmetry. eapply Forall2_length, Hqs.
Qed.

(** ** The health-check assigner *)

Lemma newHealthCheck_disabled (ps : list Proxy) groupOption :
  Type_ groupOption = "select" \/ Type_ groupOption = "relay" ->
  newHealthCheck ps groupOption = inr (NewHealthCheck ps "" 0 true).
Proof.
  intros [Ht|Ht]; unfold newHealthCheck; rewrite Ht; reflexivity.
Qed.

Lemma newHealthCheck_error (ps : list Proxy) groupOption (err : error) :
  newHealthCheck ps groupOption = inl err -> err = errMissHealthCheck.
Proof.
  unfold newHealthCheck. repeat case_match; congruence.
Qed.

Lemma newHealthCheck_missing (ps : list Proxy) groupOption :
  Type_ groupOption <> "select" -> Type_ groupOption <> "relay" ->
  URL groupOption = "" \/ Interval groupOption = 0%Z ->
  newHealthCheck ps groupOption = inl errMissHealthCheck.
Proof.
  intros Hs Hr Hmiss. unfold newHealthCheck.
  apply String.eqb_neq in Hs, Hr. rewrite Hs, Hr. simpl.
  destruct Hmiss as [-> | ->]; simpl; [reflexivity|].
  rewrite orb_true_r. reflexivity.
Qed.

(* whether a policy can be built does not depend on the endpoints *)
Lemma newHealthCheck_any_proxies (ps qs : list Proxy) groupOption
    (hc : HealthCheck Proxy) :
  newHealthCheck ps groupOption = inr hc ->
  newHealthCheck qs groupOption
  = inr (NewHealthCheck qs (hc_url hc) (hc_interval hc) (hc_lazy hc)).
Proof.
  unfold newHealthCheck. repeat case_match; intros [= <-]; reflexivity.
Qed.

(** ** The sub-provider deriver *)

Lemma RegisterProvidersInUse_dependents pp q
    (fp : ProxyProvider Proxy Regexp) s :
  dependents (RegisterProvidersInUse pp fp s) q
  = if decide (pp = q) then dependents s q ++ [fp] else dependents s q.
Proof.
  unfold dependents at 1. simpl. rewrite lookup_insert.
  destruct (decide (pp = q)) as [->|]; reflexivity.
Qed.

Lemma getProviders_loop_registry groupOption (filterRegx : option Regexp)
    (use : list string) :
  forall ps s,
    providersMap (getProviders_loop groupOption filterRegx use ps s).2
    = providersMap s.
Proof.
  induction use as [|name rest IH]; intros ps s; simpl; [reflexivity|].
  destruct (providersMap s !! name) as [[pp| |]|]; try reflexivity.
  destruct (newHealthCheck [] groupOption); [reflexivity|].
  rewrite IH. reflexivity.
Qed.

Lemma getProviders_loop_grows groupOption (filterRegx : option Regexp)
    (use : list string) :
  forall ps s q p,
    p ∈ dependents s q ->
    p ∈ dependents (getProviders_loop groupOption filterRegx use ps s).2 q.
Proof.
  induction use as [|name rest IH]; intros ps s q p Hp; simpl; [exact Hp|].
  destruct (providersMap s !! name) as [[pp| |]|]; try exact Hp.
  destruct (newHealthCheck [] groupOption); [exact Hp|].
  apply IH. rewrite RegisterProvidersInUse_dependents.
  destruct (decide (pp = q)); [|exact Hp].
  apply elem_of_app. left. exact Hp.
Qed.

Lemma getProviders_loop_ok groupOption (filterRegx : option Regexp)
    (use : list string) :
  forall acc s list s',
    getProviders_loop groupOption filterRegx use acc s = (inr list, s') ->
    exists derived,
      list = acc ++ derived /\
      Forall2 (derived_from groupOption filterRegx s) use derived /\
      Forall (fun p => exists pp, source_of p = Some pp /\
                                  p ∈ dependents s' pp) derived.
Proof.
  induction use as [|name rest IH]; intros acc s list s' Hrun; simpl in Hrun.
  - exists []. rewrite app_nil_r. split; [congruence|]. split; constructor.
  - destruct (providersMap s !! name) as [[pp| |]|] eqn:Hname;
      try discriminate.
    destruct (newHealthCheck [] groupOption) as [|hc] eqn:Hhc;
      [discriminate|].
    pose proof (getProviders_loop_grows groupOption filterRegx rest
                  (acc ++ [ProxyFilterProvider
                             (name +:+ "-in-" +:+ Name groupOption)
                             pp hc filterRegx])
                  (RegisterProvidersInUse pp
                     (ProxyFilterProvider
                        (name +:+ "-in-" +:+ Name groupOption)
                        pp hc filterRegx) s) pp
                  (ProxyFilterProvider
                     (name +:+ "-in-" +:+ Name groupOption)
                     pp hc filterRegx)) as Hkept.
    rewrite Hrun in Hkept. simpl in Hkept.
    destruct (IH _ _ _ _ Hrun) as (derived & -> & Hall & Hdep).
    eexists (_ :: derived). split; [rewrite <- app_assoc; reflexivity|].
    split.
    + constructor.
      * exists pp, hc. auto.
      * eapply Forall2_impl; [exact Hall|].
        intros n p (pp' & hc' & Hn & Hh & ->). exists pp', hc'. auto.
    + constructor; [|exact Hdep].
      exists pp. split; [reflexivity|]. apply Hkept.
      rewrite RegisterProvidersInUse_dependents.
      rewrite decide_True by reflexivity.
      apply elem_of_app. right. apply list_elem_of_singleton. reflexivity.
Qed.

(* the names that resolve to pools are consumed one by one *)
Lemma getProviders_loop_app groupOption (filterRegx : option Regexp)
    (hc : HealthCheck Proxy) (before rest : list string) :
  newHealthCheck [] groupOption = inr hc ->
  forall acc s,
    Forall (is_pool s) before ->
    exists acc' s0,
      providersMap s0 = providersMap s /\
      getProviders_loop groupOption filterRegx (before ++ rest) acc s
      = getProviders_loop groupOption filterRegx rest acc' s0.
Proof.
  intros Hhc. induction before as [|name before IH]; intros acc s Hpools.
  - exists acc, s. auto.
  - inversion Hpools as [|? ? [pp Hname] Hrest]; subst. simpl.
    rewrite Hname, Hhc.
    set (fp := ProxyFilterProvider (name +:+ "-in-" +:+ Name groupOption)
                 pp hc filterRegx).
    destruct (IH (acc ++ [fp]) (RegisterProvidersInUse pp fp s))
      as (acc' & s0 & Hreg & Heq).
    + eapply Forall_impl; [exact Hrest|]. intros n [q Hq]. exists q. exact Hq.
    + exists acc', s0. split; [rewrite Hreg; reflexivity | exact Heq].
Qed.

Lemma getProviders_loop_all groupOption (filterRegx : option Regexp)
    (hc : HealthCheck Proxy) (use : list string) :
  newHealthCheck [] groupOption = inr hc ->
  forall acc s,
    Forall (is_pool s) use ->
    exists list s',
      getProviders_loop groupOption filterRegx use acc s = (inr list, s').
Proof.
  intros Hhc acc s Hpools.
  destruct (getProviders_loop_app groupOption filterRegx hc use [] Hhc
              acc s Hpools) as (acc' & s0 & _ & Heq).
  rewrite app_nil_r in Heq. rewrite Heq. simpl. eauto.
Qed.

(** ** The blocks of [ParseProxyGroup] *)

Lemma compileFilter_error groupOption (err : error) :
  compileFilter groupOption = inl err ->
  exists cause, err = wrap_filter (Name groupOption) cause.
Proof.
  unfold compileFilter. repeat case_match; intros [= <-]; eauto.
Qed.

(* every way the inline block can end *)
Lemma inlineProviders_cases groupOption proxyMap s r s1 :
  inlineProviders groupOption proxyMap s = (r, s1) ->
  (Proxies groupOption = [] /\ r = inr [] /\ s1 = s) \/
  (Proxies groupOption <> [] /\ s1 = s /\
   exists err, r = inl (wrap_with_name (Name groupOption) err) /\
     (getProxies proxyMap (Proxies groupOption) = inl err \/
      exists ps, getProxies proxyMap (Proxies groupOption) = inr ps /\
        ((is_Some (providersMap s !! Name groupOption) /\
          err = errDuplicateProvider) \/
         (providersMap s !! Name groupOption = None /\
          (newHealthCheck ps groupOption = inl err \/
           exists hc, newHealthCheck ps groupOption = inr hc /\
             NewCompatibleProvider_err (Name groupOption) ps hc
             = Some err))))) \/
  (Proxies groupOption <> [] /\
   exists ps hc,
     getProxies proxyMap (Proxies groupOption) = inr ps /\
     providersMap s !! Name groupOption = None /\
     newHealthCheck ps groupOption = inr hc /\
     NewCompatibleProvider_err (Name groupOption) ps hc = None /\
     r = inr [synthetic groupOption ps hc] /\
     s1 = registered groupOption ps hc s).
Proof.
  unfold inlineProviders, NewCompatibleProvider.
  destruct (length (Proxies groupOption) =? 0)%nat eqn:Hlen; simpl.
  { apply length_eqb_nil in Hlen. intros [= <- <-]. left. auto. }
  apply length_eqb_cons in Hlen.
  destruct (getProxies proxyMap (Proxies groupOption)) as [e|ps] eqn:Hps.
  { intros [= <- <-]. right. left. eauto 10. }
  destruct (providersMap s !! Name groupOption) as [old|] eqn:Hold.
  { intros [= <- <-]. right. left. do 2 (split; [done|]).
    eexists. split; [reflexivity|]. right. exists ps. split; [done|].
    left. split; [by eexists | done]. }
  destruct (newHealthCheck ps groupOption) as [e|hc] eqn:Hhc.
  { intros [= <- <-]. right. left. do 2 (split; [done|]).
    eexists. split; [reflexivity|]. right. exists ps. split; [done|].
    right. split; [done|]. left. done. }
  destruct (NewCompatibleProvider_err (Name groupOption) ps hc)
    as [e|] eqn:Hnew.
  { intros [= <- <-]. right. left. do 2 (split; [done|]).
    eexists. split; [reflexivity|]. right. exists ps. split; [done|].
    right. split; [done|]. right. exists hc. done. }
  intros [= <- <-]. right. right. split; [done|]. exists ps, hc. done.
Qed.

(* the block completes exactly when its four checks pass *)
Lemma inlineProviders_run groupOption proxyMap s ps hc :
  Proxies groupOption <> [] ->
  getProxies proxyMap (Proxies groupOption) = inr ps ->
  providersMap s !! Name groupOption = None ->
  newHealthCheck ps groupOption = inr hc ->
  NewCompatibleProvider_err (Name groupOption) ps hc = None ->
  inlineProviders groupOption proxyMap s
  = (inr [synthetic groupOption ps hc], registered groupOption ps hc s).
Proof.
  intros Hne Hps Hfree Hhc Hnew. unfold inlineProviders, NewCompatibleProvider.
  apply length_eqb_cons in Hne. rewrite Hne. simpl.
  rewrite Hps, Hfree, Hhc, Hnew. reflexivity.
Qed.

Lemma inlineProviders_skip groupOption proxyMap s :
  Proxies groupOption = [] ->
  inlineProviders groupOption proxyMap s = (inr [], s).
Proof. intros Hnil. unfold inlineProviders. rewrite Hnil. reflexivity. Qed.

Lemma mergeProviders_registry groupOption (filterRegx : option Regexp)
    providers s :
  providersMap (mergeProviders groupOption filterRegx providers s).2
  = providersMap s.
Proof.
  unfold mergeProviders, getProviders.
  destruct (negb _); [|reflexivity].
  pose proof (getProviders_loop_registry groupOption filterRegx
                (Use groupOption) [] s) as Hreg.
  destruct (getProviders_loop _ _ _ _ _) as [[e|l] s']; exact Hreg.
Qed.

Lemma mergeProviders_error groupOption (filterRegx : option Regexp)
    providers s err s' :
  mergeProviders groupOption filterRegx providers s = (inl err, s') ->
  Use groupOption <> [] /\
  exists cause,
    (getProviders groupOption filterRegx s).1 = inl cause /\
    err = wrap_with_name (Name groupOption) cause.
Proof.
  unfold mergeProviders.
  destruct (length (Use groupOption) =? 0)%nat eqn:Hlen; simpl;
    [discriminate|].
  apply length_eqb_cons in Hlen.
  destruct (getProviders groupOption filterRegx s) as [[e|l] s0];
    intros [= <- <-]; eauto.
Qed.

Lemma dispatch_providers config groupOption providers
    (group : ProxyAdapter Proxy Regexp URLTestOption) :
  dispatch config groupOption providers = inr group ->
  adapter_providers group = providers.
Proof.
  unfold dispatch, NewLoadBalance.
  repeat case_match; intros [= <-]; reflexivity.
Qed.

Lemma dispatch_error config groupOption providers (err : error) :
  dispatch config groupOption providers = inl err ->
  err = unsupported_type (Name groupOption) (Type_ groupOption) \/
  (Type_ groupOption = "load-balance" /\
   NewLoadBalance_err groupOption providers (parseStrategy config)
   = Some err).
Proof.
  unfold dispatch, NewLoadBalance.
  destruct (String.eqb_spec (Type_ groupOption) "url-test"); [discriminate|].
  destruct (String.eqb_spec (Type_ groupOption) "select"); [discriminate|].
  destruct (String.eqb_spec (Type_ groupOption) "fallback"); [discriminate|].
  destruct (String.eqb_spec (Type_ groupOption) "load-balance").
  - destruct (NewLoadBalance_err _ _ _) eqn:Hlb; intros [= <-]. auto.
  - destruct (String.eqb_spec (Type_ groupOption) "relay"); [discriminate|].
    intros [= <-]. auto.
Qed.

(* every way the leading checks can end *)
Lemma ParseProxyGroup_cases config proxyMap s :
  ((exists err, structure_Decode config defaultGroupOption = inl err) /\
   ParseProxyGroup config proxyMap s = (inl errFormat, s)) \/
  exists groupOption,
    structure_Decode config defaultGroupOption = inr groupOption /\
    (((Type_ groupOption = "" \/ Name groupOption = "") /\
      ParseProxyGroup config proxyMap s = (inl errFormat, s)) \/
     (Type_ groupOption <> "" /\ Name groupOption <> "" /\
      ((exists cause,
          compileFilter groupOption
          = inl (wrap_filter (Name groupOption) cause) /\
          ParseProxyGroup config proxyMap s
          = (inl (wrap_filter (Name groupOption) cause), s)) \/
       exists filterRegx,
         compileFilter groupOption = inr filterRegx /\
         ((Proxies groupOption = [] /\ Use groupOption = [] /\
           ParseProxyGroup config proxyMap s
           = (inl (wrap_with_name (Name groupOption) errMissProxy), s)) \/
          ((Proxies groupOption <> [] \/ Use groupOption <> []) /\
           ParseProxyGroup config proxyMap s
           = resolve config groupOption filterRegx proxyMap s))))).
Proof.
  unfold ParseProxyGroup, resolve.
  destruct (structure_Decode config defaultGroupOption) as [e|groupOption];
    [left; eauto|].
  right. exists groupOption. split; [reflexivity|].
  destruct (String.eqb_spec (Type_ groupOption) "") as [Ht|Ht];
    [left; auto|].
  destruct (String.eqb_spec (Name groupOption) "") as [Hn|Hn];
    [left; auto|].
  right. simpl. do 2 (split; [assumption|]).
  destruct (compileFilter groupOption) as [e|filterRegx] eqn:Hf.
  { left. destruct (compileFilter_error _ _ Hf) as [cause ->]. eauto. }
  right. exists filterRegx. split; [reflexivity|].
  destruct (length (Proxies groupOption) =? 0)%nat eqn:Hp; simpl.
  - destruct (length (Use groupOption) =? 0)%nat eqn:Hu.
    + left. apply length_eqb_nil in Hp, Hu. auto.
    + right. apply length_eqb_cons in Hu. split; [auto|].
      repeat case_match; reflexivity.
  - right. apply length_eqb_cons in Hp. split; [auto|].
    repeat case_match; reflexivity.
Qed.

(* a configuration that passes the leading checks is resolved *)
Lemma ParseProxyGroup_resolve config proxyMap s groupOption filterRegx :
  structure_Decode config defaultGroupOption = inr groupOption ->
  Type_ groupOption <> "" -> Name groupOption <> "" ->
  compileFilter groupOption = inr filterRegx ->
  Proxies groupOption <> [] \/ Use groupOption <> [] ->
  ParseProxyGroup config proxyMap s
  = resolve config groupOption filterRegx proxyMap s.
Proof.
  intros Hdec Ht Hn Hf Hsome.
  destruct (ParseProxyGroup_cases config proxyMap s)
    as [[[e He] _]|(o & Ho & Hrest)]; [congruence|].
  assert (o = groupOption) as -> by congruence.
  destruct Hrest as [[[?|?] _]|(_ & _ & [(c & Hc & _)|(f & Hf' & Hrest)])];
    try congruence.
  assert (f = filterRegx) as -> by congruence.
  destruct Hrest as [(Hp & Hu & _)|[_ Hrun]]; [|exact Hrun].
  destruct Hsome; congruence.
Qed.

Lemma getProviders_loop_error groupOption (filterRegx : option Regexp)
    (use : list string) :
  forall acc s err s',
    getProviders_loop groupOption filterRegx use acc s = (inl err, s') ->
    (exists name, name ∈ use /\ providersMap s !! name = None /\
                  err = not_found name) \/
    (exists name p, name ∈ use /\ providersMap s !! name = Some p /\
                    (forall pp, p <> ProxySetProvider pp) /\
                    err = cant_contain name) \/
    (err = errMissHealthCheck /\
     newHealthCheck (@nil Proxy) groupOption = inl errMissHealthCheck).
Proof.
  induction use as [|name rest IH]; intros acc s err s' Hrun; simpl in Hrun;
    [discriminate|].
  destruct (providersMap s !! name) as [p|] eqn:Hname.
  - destruct p as [pp|n ps hc|n psd hc f].
    + destruct (newHealthCheck [] groupOption) as [e|hc] eqn:Hhc.
      * injection Hrun as <- <-. right. right.
        rewrite (newHealthCheck_error _ _ _ Hhc) in *. auto.
      * destruct (IH _ _ _ _ Hrun)
          as [(n & Hin & Hn & ->)|[(n & p & Hin & Hn & Hq & ->)|Hmiss]].
        -- left. exists n. split; [right; exact Hin|]. auto.
        -- right. left. exists n, p. split; [right; exact Hin|]. auto.
        -- right. right. exact Hmiss.
    + injection Hrun as <- <-. right. left. eexists name, _.
      split; [left|]. split; [exact Hname|]. split; [discriminate|done].
    + injection Hrun as <- <-. right. left. eexists name, _.
      split; [left|]. split; [exact Hname|]. split; [discriminate|done].
  - injection Hrun as <- <-. left. exists name. split; [left|]. auto.
Qed.

Lemma mergeProviders_ok groupOption (filterRegx : option Regexp)
    providers s merged s' :
  mergeProviders groupOption filterRegx providers s = (inr merged, s') ->
  exists derived,
    merged = merge_order groupOption providers derived /\
    Forall2 (derived_from groupOption filterRegx s) (Use groupOption)
      derived /\
    Forall (fun p => exists pp, source_of p = Some pp /\
                                p ∈ dependents s' pp) derived.
Proof.
  unfold mergeProviders, merge_order.
  destruct (length (Use groupOption) =? 0)%nat eqn:Hlen; simpl.
  - apply length_eqb_nil in Hlen. intros [= <- <-]. exists [].
    rewrite Hlen, app_nil_r. simpl.
    split; [destruct (String.eqb _ _); reflexivity|]. split; constructor.
  - unfold getProviders.
    destruct (getProviders_loop _ _ _ _ _) as [[e|l] s0] eqn:Hloop;
      [discriminate|].
    intros [= <- <-]. apply getProviders_loop_ok in Hloop.
    destruct Hloop as (derived & -> & Hall & Hdep).
    exists derived. simpl. auto.
Qed.

(* the first name the loop fails on makes the whole block fail *)
Lemma mergeProviders_stops groupOption (filterRegx : option Regexp)
    providers s (before : list string) (name : string)
    (after : list string) :
  Use groupOption = before ++ name :: after ->
  Forall (is_pool s) before ->
  (before <> [] ->
   exists hc, newHealthCheck (@nil Proxy) groupOption = inr hc) ->
  exists s0,
    providersMap s0 = providersMap s /\
    (before = [] -> s0 = s) /\
    forall err s',
      getProviders_loop groupOption filterRegx [name] [] s0 = (inl err, s') ->
      mergeProviders groupOption filterRegx providers s
      = (inl (wrap_with_name (Name groupOption) err), s').
Proof.
  intros Huse Hpools Hhc. unfold mergeProviders, getProviders.
  rewrite Huse.
  replace (length (before ++ name :: after) =? 0)%nat with false
    by (symmetry; apply length_eqb_cons; destruct before; discriminate).
  simpl negb. cbv iota.
  destruct before as [|b before].
  - exists s. do 2 (split; [reflexivity|]). simpl. intros err s'.
    destruct (providersMap s !! name) as [[pp| |]|];
      try (intros [= <- <-]; reflexivity).
    destruct (newHealthCheck [] groupOption);
      [intros [= <- <-]; reflexivity | discriminate].
  - destruct Hhc as [hc Hhc]; [discriminate|].
    destruct (getProviders_loop_app groupOption filterRegx hc
                (b :: before) (name :: after) Hhc [] s Hpools)
      as (acc' & s0 & Hreg & ->).
    exists s0. split; [exact Hreg|]. split; [discriminate|].
    simpl. intros err s'.
    destruct (providersMap s0 !! name) as [[pp| |]|];
      try (intros [= <- <-]; reflexivity).
    rewrite Hhc. discriminate.
Qed.

Lemma registered_pool groupOption (ps : list Proxy) (hc : HealthCheck Proxy)
    s (name : string) :
  providersMap s !! Name groupOption = None ->
  is_pool s name -> is_pool (registered groupOption ps hc s) name.
Proof.
  intros Hfree [pp Hname]. exists pp. simpl.
  rewrite lookup_insert_ne; [exact Hname|]. congruence.
Qed.

Lemma registered_derived groupOption (filterRegx : option Regexp)
    (ps : list Proxy) (hc : HealthCheck Proxy) s (name : string)
    (p : ProxyProvider Proxy Regexp) :
  derived_from groupOption filterRegx (registered groupOption ps hc s) name p ->
  derived_from groupOption filterRegx s name p.
Proof.
  intros (pp & hc' & Hname & Hhc & ->). exists pp, hc'.
  split; [|auto]. simpl in Hname. rewrite lookup_insert in Hname.
  destruct (decide (Name groupOption = name)); [discriminate|exact Hname].
Qed.

Lemma compileFilter_ok groupOption :
  Filter groupOption = "" \/
  (exists regx, regexp_Compile (Filter groupOption) = inr regx) ->
  exists filterRegx, compileFilter groupOption = inr filterRegx.
Proof.
  unfold compileFilter. intros [->|[regx ->]]; [eauto|].
  destruct (String.eqb _ _); eauto.
Qed.

(** ** Claims *)

(** C8.  [getProxies] keeps the input order and the duplicates: on
    success the i-th handle is the registry's entry for the i-th name,
    so the result is exactly as long as the input.  When a name is
    missing, the call fails with the not-found error of the first
    missing name in input order and returns no handle; when none is
    missing, it succeeds.  Hence the synthetic provider of a resolved
    fixed-select group with inline proxies, the first provider of the
    adapter, holds the endpoints in the listed order. *)
Theorem getProxies_order (mapping : gmap string Proxy) (names : list string)
    (ps : list Proxy) (before : list string) (missing : string)
    (after : list string) config s groupOption group s' :
  (getProxies mapping names = inr ps ->
   Forall2 (fun name p => mapping !! name = Some p) names ps /\
   length ps = length names) /\
  (names = before ++ missing :: after ->
   Forall (fun name => is_Some (mapping !! name)) before ->
   mapping !! missing = None ->
   getProxies mapping names = inl (not_found missing)) /\
  (Forall (fun name => is_Some (mapping !! name)) names ->
   exists handles, getProxies mapping names = inr handles) /\
  (structure_Decode config defaultGroupOption = inr groupOption ->
   Type_ groupOption = "select" ->
   Proxies groupOption <> [] ->
   ParseProxyGroup config mapping s = (inr group, s') ->
   exists handles hc rest,
     adapter_providers group
     = CompatibleProvider (Name groupOption) handles hc :: rest /\
     Forall2 (fun name p => mapping !! name = Some p)
       (Proxies groupOption) handles).
Proof.
  split; [|split; [|split]].
  - intros Hrun. split; [|eapply getProxies_nonempty, Hrun].
    destruct (getProxies_loop_ok _ _ _ _ Hrun) as (qs & -> & Hqs).
    exact Hqs.
  - intros -> Hbefore Hmissing. apply getProxies_loop_missing; assumption.
  - intros Hall. apply getProxies_loop_found. exact Hall.
  - intros Hdec Htype Hinline Hrun.
    destruct (ParseProxyGroup_cases config mapping s)
      as [[_ Hfail]|(o & Ho & Hrest)]; [congruence|].
    assert (o = groupOption) as -> by congruence.
    destruct Hrest as [[_ Hfail]|(_ & _ & [(c & _ & Hfail)|
      (f & _ & [(_ & _ & Hfail)|[_ Hbody]])])]; try congruence.
    rewrite Hbody in Hrun. unfold resolve in Hrun.
    destruct (inlineProviders groupOption mapping s) as [[e|providers] s1]
      eqn:Hin; [discriminate|].
    apply inlineProviders_cases in Hin.
    destruct Hin as [[Hnil _]|[(_ & _ & e & [=] & _)|
      (_ & ps' & hc & Hps & _ & _ & _ & [= ->] & ->)]]; [contradiction|].
    destruct (mergeProviders _ _ _ _) as [[e|merged] s2] eqn:Hmerge;
      [discriminate|].
    injection Hrun as Hdisp <-. apply dispatch_providers in Hdisp.
    unfold mergeProviders in Hmerge. rewrite Htype in Hmerge. simpl in Hmerge.
    destruct (getProxies_loop_ok _ _ _ _ Hps) as (qs & -> & Hqs).
    exists qs, hc.
    destruct (negb _).
    + destruct (getProviders _ _ _) as [[e|l] s0]; [discriminate|].
      injection Hmerge as <- <-. exists l. split; [exact Hdisp|exact Hqs].
    + injection Hmerge as <- <-. exists []. split; [exact Hdisp|exact Hqs].
Qed.

(* what a completed inline block leaves for the later blocks to fail on *)
Lemma resolve_error config groupOption (filterRegx : option Regexp)
    proxyMap s err s' :
  resolve config groupOption filterRegx proxyMap s = (inl err, s') ->
  (s' = s /\ exists cause, err = wrap_with_name (Name groupOption) cause) \/
  exists providers s1,
    inlineProviders groupOption proxyMap s = (inr providers, s1) /\
    providersMap s' = providersMap s1 /\
    ((Use groupOption <> [] /\
      exists name,
        name ∈ Use groupOption /\
        ((providersMap s1 !! name = None /\
          err = wrap_with_name (Name groupOption) (not_found name)) \/
         (exists p, providersMap s1 !! name = Some p /\
                    (forall pp, p <> ProxySetProvider pp) /\
                    err = wrap_with_name (Name groupOption)
                            (cant_contain name)))) \/
     (Use groupOption <> [] /\
      newHealthCheck (@nil Proxy) groupOption = inl errMissHealthCheck /\
      err = wrap_with_name (Name groupOption) errMissHealthCheck) \/
     err = unsupported_type (Name groupOption) (Type_ groupOption) \/
     (Type_ groupOption = "load-balance" /\
      exists merged,
        NewLoadBalance_err groupOption merged (parseStrategy config)
        = Some err)).
Proof.
  unfold resolve.
  destruct (inlineProviders groupOption proxyMap s) as [[e|providers] s1]
    eqn:Hin.
  { intros [= <- <-]. left. apply inlineProviders_cases in Hin.
    destruct Hin as [(_ & [=] & _)|[(_ & -> & c & [= ->] & _)|
      (_ & ? & ? & _ & _ & _ & _ & [=] & _)]]. eauto. }
  pose proof (mergeProviders_registry groupOption filterRegx providers s1)
    as Hreg.
  destruct (mergeProviders groupOption filterRegx providers s1)
    as [[e|merged] s2] eqn:Hmerge; simpl in Hreg.
  - intros [= <- <-]. right. exists providers, s1.
    do 2 (split; [done|]).
    apply mergeProviders_error in Hmerge.
    destruct Hmerge as (Huse & cause & Hcause & ->).
    unfold getProviders in Hcause.
    destruct (getProviders_loop _ _ _ _ _) as [r s0] eqn:Hloop.
    simpl in Hcause. subst r. apply getProviders_loop_error in Hloop.
    destruct Hloop as [(n & Hin' & Hn & ->)|[(n & p & Hin' & Hn & Hp & ->)|
      [-> Hhc]]].
    + left. split; [done|]. exists n. split; [done|]. left. done.
    + left. split; [done|]. exists n. split; [done|]. right. exists p. done.
    + right. left. done.
  - intros [= Hdisp <-]. right. exists providers, s1.
    do 2 (split; [done|]). right. right.
    apply dispatch_error in Hdisp. destruct Hdisp as [->|[Ht Hlb]]; eauto.
Qed.

(** C1 (as amended).  A failing call never loses or changes an entry of
    the registry, and leaves it either exactly as it was or as it was
    plus one entry: the synthetic provider of the inline proxies under
    the group's name, which was free.  The second case is the case of an
    error that arises after the inline-proxies step has completed: an
    unresolved or incompatible [use] reference, an unrecognized strategy
    kind, or a failure of the load-balance constructor.  (A missing
    health check on a [use] entry cannot occur then: the inline step
    would have failed on it first.) *)
Theorem ParseProxyGroup_error_registry config proxyMap s err s' :
  ParseProxyGroup config proxyMap s = (inl err, s') ->
  providersMap s' = providersMap s \/
  exists groupOption ps hc,
    structure_Decode config defaultGroupOption = inr groupOption /\
    Proxies groupOption <> [] /\
    getProxies proxyMap (Proxies groupOption) = inr ps /\
    newHealthCheck ps groupOption = inr hc /\
    providersMap s !! Name groupOption = None /\
    providersMap s'
    = <[Name groupOption := CompatibleProvider (Name groupOption) ps hc]>
        (providersMap s) /\
    ((Use groupOption <> [] /\
      exists name,
        name ∈ Use groupOption /\
        (err = wrap_with_name (Name groupOption) (not_found name) \/
         err = wrap_with_name (Name groupOption) (cant_contain name))) \/
     err = unsupported_type (Name groupOption) (Type_ groupOption) \/
     (Type_ groupOption = "load-balance" /\
      exists merged,
        NewLoadBalance_err groupOption merged (parseStrategy config)
        = Some err)).
Proof.
  intros Hrun.
  destruct (ParseProxyGroup_cases config proxyMap s)
    as [[_ Hfail]|(o & Ho & [[_ Hfail]|(_ & _ & [(c & _ & Hfail)|
      (f & _ & [(_ & _ & Hfail)|[_ Hbody]])])])];
    try (left; congruence).
  rewrite Hbody in Hrun. apply resolve_error in Hrun.
  destruct Hrun as [[-> _]|(providers & s1 & Hin & Hreg & Hlate)];
    [left; reflexivity|].
  apply inlineProviders_cases in Hin.
  destruct Hin as [(_ & _ & ->)|[(_ & _ & e & [=] & _)|
    (Hne & ps & hc & Hps & Hfree & Hhc & _ & _ & ->)]];
    [left; exact Hreg|].
  right. exists o, ps, hc. do 5 (split; [done|]). split; [exact Hreg|].
  destruct Hlate as [(Huse & n & Hn & Hwhy)|[(_ & Hmiss & _)|Hlate]].
  - left. split; [done|]. exists n. split; [done|].
    destruct Hwhy as [[_ ->]|(p & _ & _ & ->)]; auto.
  - rewrite (newHealthCheck_any_proxies _ [] _ _ Hhc) in Hmiss.
    discriminate.
  - right. exact Hlate.
Qed.

(** C2 (as amended).  The format error, returned when decoding fails or
    when [name] or [type] is empty, is the bare sentinel: it carries no
    group name.  Every other error the parser builds starts with the
    group's name; an error of the load-balance constructor is returned
    as the constructor made it. *)
Theorem ParseProxyGroup_error_prefix config proxyMap s err s' :
  ParseProxyGroup config proxyMap s = (inl err, s') ->
  (err = errFormat /\
   ((exists cause, structure_Decode config defaultGroupOption = inl cause) \/
    exists groupOption,
      structure_Decode config defaultGroupOption = inr groupOption /\
      (Type_ groupOption = "" \/ Name groupOption = ""))) \/
  exists groupOption,
    structure_Decode config defaultGroupOption = inr groupOption /\
    Type_ groupOption <> "" /\ Name groupOption <> "" /\
    (String.prefix (Name groupOption) (Error err) = true \/
     (Type_ groupOption = "load-balance" /\
      exists merged,
        NewLoadBalance_err groupOption merged (parseStrategy config)
        = Some err)).
Proof.
  intros Hrun.
  destruct (ParseProxyGroup_cases config proxyMap s)
    as [[Hdec Hfail]|(o & Ho & [[Hempty Hfail]|(Ht & Hn & Hrest)])].
  - left. split; [congruence|]. left. exact Hdec.
  - left. split; [congruence|]. right. eauto.
  - right. exists o. do 3 (split; [done|]).
    destruct Hrest as [(c & _ & Hfail)|(f & _ & [(_ & _ & Hfail)|[_ Hbody]])].
    + left. rewrite Hfail in Hrun. injection Hrun as <- _.
      apply prefix_append.
    + left. rewrite Hfail in Hrun. injection Hrun as <- _.
      apply prefix_append.
    + rewrite Hbody in Hrun. apply resolve_error in Hrun.
      destruct Hrun as [(_ & c & ->)|(providers & s1 & _ & _ & Hlate)];
        [left; apply prefix_append|].
      destruct Hlate as [(_ & n & _ & [[_ ->]|(p & _ & _ & ->)])|
        [(_ & _ & ->)|[->|Hlb]]]; try (left; apply prefix_append).
      right. exact Hlb.
Qed.

(** C9 (as amended).  A configuration whose [proxies] and [use] both
    decode to empty lists always fails and leaves the store, registry
    included, exactly as it was.  The failure is the missing-reference
    error, prefixed with the group's name, when the checks made before it
    pass: [name] and [type] are not empty and the filter is empty or
    compiles. *)
Theorem ParseProxyGroup_no_reference config proxyMap s groupOption :
  structure_Decode config defaultGroupOption = inr groupOption ->
  Proxies groupOption = [] ->
  Use groupOption = [] ->
  (exists err, ParseProxyGroup config proxyMap s = (inl err, s)) /\
  (Type_ groupOption <> "" -> Name groupOption <> "" ->
   (Filter groupOption = "" \/
    exists regx, regexp_Compile (Filter groupOption) = inr regx) ->
   ParseProxyGroup config proxyMap s
   = (inl (wrap_with_name (Name groupOption) errMissProxy), s) /\
   errors_Is (wrap_with_name (Name groupOption) errMissProxy) errMissProxy
   = true).
Proof.
  intros Hdec Hp Hu.
  destruct (ParseProxyGroup_cases config proxyMap s)
    as [[[e He] _]|(o & Ho & Hrest)]; [congruence|].
  assert (o = groupOption) as -> by congruence.
  split.
  - destruct Hrest as [[_ Hfail]|(_ & _ & [(c & _ & Hfail)|
      (f & _ & [(_ & _ & Hfail)|[[?|?] _]])])]; eauto; contradiction.
  - intros Ht Hn Hfilter. split; [|reflexivity].
    destruct Hrest as [[[?|?] _]|(_ & _ & [(c & Hc & _)|
      (f & _ & [(_ & _ & Hfail)|[[?|?] _]])])]; try done.
    unfold compileFilter in Hc.
    destruct Hfilter as [Hf|[regx Hregx]].
    + rewrite Hf in Hc. discriminate.
    + rewrite Hregx in Hc. destruct (String.eqb _ _); discriminate.
Qed.

(** C10.  No call removes or overwrites a registry entry: whatever was
    bound before the call is bound to the same provider after it.  A
    successful call for a group with inline proxies adds exactly one
    entry, the synthetic provider under the group's name, which was
    free; a call for a group that lists only [use] leaves the registry
    as it was, so it adds nothing under the group's name, and its inline
    block, where the duplicate-name guard lives, does nothing at all. *)
Theorem ParseProxyGroup_registry_frame config proxyMap s :
  (forall name p,
     providersMap s !! name = Some p ->
     providersMap (ParseProxyGroup config proxyMap s).2 !! name = Some p) /\
  (forall groupOption group s',
     structure_Decode config defaultGroupOption = inr groupOption ->
     ParseProxyGroup config proxyMap s = (inr group, s') ->
     Proxies groupOption <> [] ->
     providersMap s !! Name groupOption = None /\
     exists ps hc,
       providersMap s'
       = <[Name groupOption := CompatibleProvider (Name groupOption) ps hc]>
           (providersMap s)) /\
  (forall groupOption,
     structure_Decode config defaultGroupOption = inr groupOption ->
     Proxies groupOption = [] ->
     providersMap (ParseProxyGroup config proxyMap s).2 = providersMap s /\
     inlineProviders groupOption proxyMap s = (inr [], s)).
Proof.
  assert (Hshape :
    providersMap (ParseProxyGroup config proxyMap s).2 = providersMap s \/
    exists groupOption ps hc,
      structure_Decode config defaultGroupOption = inr groupOption /\
      Proxies groupOption <> [] /\
      providersMap s !! Name groupOption = None /\
      providersMap (ParseProxyGroup config proxyMap s).2
      = <[Name groupOption := CompatibleProvider (Name groupOption) ps hc]>
          (providersMap s)).
  { destruct (ParseProxyGroup_cases config proxyMap s)
      as [[_ Hfail]|(o & Ho & [[_ Hfail]|(_ & _ & [(c & _ & Hfail)|
        (f & _ & [(_ & _ & Hfail)|[_ Hbody]])])])];
      try (left; rewrite Hfail; reflexivity).
    rewrite Hbody. unfold resolve.
    destruct (inlineProviders o proxyMap s) as [r s1] eqn:Hin.
    apply inlineProviders_cases in Hin.
    destruct Hin as [(_ & -> & ->)|[(_ & -> & e & -> & _)|
      (Hne & ps & hc & _ & Hfree & _ & _ & -> & ->)]].
    - left.
      pose proof (mergeProviders_registry o f [] s) as Hreg.
      destruct (mergeProviders o f [] s) as [[e|merged] s2]; exact Hreg.
    - left. reflexivity.
    - right. exists o, ps, hc. do 3 (split; [done|]).
      pose proof (mergeProviders_registry o f [synthetic o ps hc]
                    (registered o ps hc s)) as Hreg.
      destruct (mergeProviders _ _ _ _) as [[e|merged] s2]; exact Hreg. }
  split; [|split].
  - intros name p Hname.
    destruct Hshape as [->|(o & ps & hc & _ & _ & Hfree & ->)]; [done|].
    rewrite lookup_insert_ne; [done|]. congruence.
  - intros groupOption group s' Hdec Hrun Hne.
    rewrite Hrun in Hshape. simpl in Hshape.
    destruct Hshape as [Hsame|(o & ps & hc & Ho & _ & Hfree & Hnew)].
    + exfalso.
      destruct (ParseProxyGroup_cases config proxyMap s)
        as [[_ Hfail]|(o & Ho & [[_ Hfail]|(_ & _ & [(c & _ & Hfail)|
          (f & _ & [(_ & _ & Hfail)|[_ Hbody]])])])]; try congruence.
      assert (o = groupOption) as -> by congruence.
      rewrite Hbody in Hrun. unfold resolve in Hrun.
      destruct (inlineProviders groupOption proxyMap s) as [r s1] eqn:Hin.
      apply inlineProviders_cases in Hin.
      destruct Hin as [(? & _)|[(_ & _ & e & -> & _)|
        (_ & ps & hc & _ & Hfree & _ & _ & -> & ->)]];
        [contradiction|discriminate|].
      pose proof (mergeProviders_registry groupOption f
                    [synthetic groupOption ps hc]
                    (registered groupOption ps hc s)) as Hreg.
      destruct (mergeProviders _ _ _ _) as [[e|merged] s2];
        [discriminate|].
      injection Hrun as _ <-. simpl in Hreg. rewrite Hsame in Hreg.
      apply (f_equal (fun m => m !! Name groupOption)) in Hreg.
      rewrite lookup_insert_eq in Hreg. congruence.
    + assert (o = groupOption) as -> by congruence. eauto.
  - intros groupOption Hdec Hnil.
    split; [|apply inlineProviders_skip; exact Hnil].
    destruct Hshape as [Hsame|(o & ps & hc & Ho & Hne & _)]; [exact Hsame|].
    congruence.
Qed.

(** C3.  When a group that lists both inline proxies and [use]
    references resolves, its adapter holds the synthetic provider of the
    inline endpoints and one derived provider per [use] name, in [use]
    order.  For type "fallback" every derived provider comes before the
    synthetic one; for every other strategy kind the synthetic provider
    comes first and the derived providers follow. *)
Theorem ParseProxyGroup_provider_order config proxyMap s groupOption
    group s' :
  structure_Decode config defaultGroupOption = inr groupOption ->
  Proxies groupOption <> [] ->
  Use groupOption <> [] ->
  ParseProxyGroup config proxyMap s = (inr group, s') ->
  exists ps hc filterRegx derived,
    getProxies proxyMap (Proxies groupOption) = inr ps /\
    newHealthCheck ps groupOption = inr hc /\
    compileFilter groupOption = inr filterRegx /\
    Forall2 (derived_from groupOption filterRegx s) (Use groupOption)
      derived /\
    adapter_providers group
    = if String.eqb (Type_ groupOption) "fallback"
      then derived ++ [CompatibleProvider (Name groupOption) ps hc]
      else CompatibleProvider (Name groupOption) ps hc :: derived.
Proof.
  intros Hdec Hinline Huse Hrun.
  destruct (ParseProxyGroup_cases config proxyMap s)
    as [[_ Hfail]|(o & Ho & Hrest)]; [congruence|].
  assert (o = groupOption) as -> by congruence.
  destruct Hrest as [[_ Hfail]|(_ & _ & [(c & _ & Hfail)|
    (f & Hf & [(_ & _ & Hfail)|[_ Hbody]])])]; try congruence.
  rewrite Hbody in Hrun. unfold resolve in Hrun.
  destruct (inlineProviders groupOption proxyMap s) as [[e|providers] s1]
    eqn:Hin; [discriminate|].
  apply inlineProviders_cases in Hin.
  destruct Hin as [[Hnil _]|[(_ & _ & e & [=] & _)|
    (_ & ps & hc & Hps & _ & Hhc & _ & [= ->] & ->)]]; [contradiction|].
  destruct (mergeProviders _ _ _ _) as [[e|merged] s2] eqn:Hmerge;
    [discriminate|].
  injection Hrun as Hdisp <-. apply dispatch_providers in Hdisp.
  apply mergeProviders_ok in Hmerge.
  destruct Hmerge as (derived & -> & Hall & _).
  exists ps, hc, f, derived. do 3 (split; [done|]). split.
  - eapply Forall2_impl; [exact Hall|]. intros n p.
    apply registered_derived.
  - exact Hdisp.
Qed.

(** C7 (as amended).  Once the steps before the [use] list have
    succeeded, the names of [use] are taken in order against the registry
    as it then stands.  If a name resolves to a provider that is not a
    dynamic pool, while every name before it resolves to a dynamic pool
    (for which, when there is one, a health-check policy can be built),
    resolution fails with the incompatible-reference error naming it,
    prefixed with the group's name.  If resolution succeeds, every [use]
    name has yielded, in order, a derived provider named
    "<source>-in-<group>" on the pool the name resolves to, each one
    registered as a dependent of that pool; these are the adapter's
    providers next to the inline ones. *)
Theorem ParseProxyGroup_use_references config proxyMap s groupOption
    filterRegx providers s1 :
  structure_Decode config defaultGroupOption = inr groupOption ->
  Type_ groupOption <> "" -> Name groupOption <> "" ->
  compileFilter groupOption = inr filterRegx ->
  inlineProviders groupOption proxyMap s = (inr providers, s1) ->
  (forall before name after p,
     Use groupOption = before ++ name :: after ->
     Forall (is_pool s1) before ->
     (before <> [] ->
      exists hc, newHealthCheck (@nil Proxy) groupOption = inr hc) ->
     providersMap s1 !! name = Some p ->
     (forall pp, p <> ProxySetProvider pp) ->
     (ParseProxyGroup config proxyMap s).1
     = inl (wrap_with_name (Name groupOption) (cant_contain name))) /\
  (forall group s',
     ParseProxyGroup config proxyMap s = (inr group, s') ->
     exists derived,
       Forall2 (derived_from groupOption filterRegx s1) (Use groupOption)
         derived /\
       Forall (fun p => exists pp, source_of p = Some pp /\
                                   p ∈ dependents s' pp) derived /\
       adapter_providers group
       = if String.eqb (Type_ groupOption) "fallback"
         then derived ++ providers
         else providers ++ derived).
Proof.
  intros Hdec Ht Hn Hf Hin. split.
  - intros before name after p Huse Hpools Hhc Hname Hkind.
    rewrite (ParseProxyGroup_resolve config proxyMap s groupOption
               filterRegx) by (try done; right; rewrite Huse;
                               destruct before; discriminate).
    unfold resolve. rewrite Hin.
    destruct (mergeProviders_stops groupOption filterRegx providers s1
                before name after Huse Hpools Hhc)
      as (s0 & Hreg & _ & Hstop).
    erewrite Hstop; [reflexivity|].
    simpl. rewrite Hreg, Hname.
    destruct p as [pp| |]; [exfalso; eapply Hkind; reflexivity|..];
      reflexivity.
  - intros group s' Hrun.
    destruct (ParseProxyGroup_cases config proxyMap s)
      as [[_ Hfail]|(o & Ho & Hrest)]; [congruence|].
    assert (o = groupOption) as -> by congruence.
    destruct Hrest as [[_ Hfail]|(_ & _ & [(c & _ & Hfail)|
      (f & Hf' & [(_ & _ & Hfail)|[_ Hbody]])])]; try congruence.
    assert (f = filterRegx) as -> by congruence.
    rewrite Hbody in Hrun. unfold resolve in Hrun. rewrite Hin in Hrun.
    destruct (mergeProviders _ _ _ _) as [[e|merged] s2] eqn:Hmerge;
      [discriminate|].
    injection Hrun as Hdisp <-. apply dispatch_providers in Hdisp.
    apply mergeProviders_ok in Hmerge.
    destruct Hmerge as (derived & -> & Hall & Hdep).
    exists derived. auto.
Qed.

(** C4.  An otherwise valid configuration of type "select" or "relay"
    resolves whatever its [url], [interval] and [lazy] are, absent ones
    included: nothing is assumed about them.  Every health-check policy
    built for such a group, for whatever endpoints, is the disabled one
    (empty URL, zero interval, lazy), and this is the policy of every
    provider of the resulting adapter. *)
Theorem ParseProxyGroup_select_relay config proxyMap s groupOption :
  structure_Decode config defaultGroupOption = inr groupOption ->
  Type_ groupOption = "select" \/ Type_ groupOption = "relay" ->
  Name groupOption <> "" ->
  (Filter groupOption = "" \/
   exists regx, regexp_Compile (Filter groupOption) = inr regx) ->
  Proxies groupOption <> [] \/ Use groupOption <> [] ->
  Forall (fun name => is_Some (proxyMap !! name)) (Proxies groupOption) ->
  (Proxies groupOption <> [] ->
   providersMap s !! Name groupOption = None /\
   forall ps,
     getProxies proxyMap (Proxies groupOption) = inr ps ->
     NewCompatibleProvider_err (Name groupOption) ps
       (NewHealthCheck ps "" 0 true) = None) ->
  Forall (is_pool s) (Use groupOption) ->
  (forall ps : list Proxy,
     newHealthCheck ps groupOption = inr (NewHealthCheck ps "" 0 true)) /\
  exists group s',
    ParseProxyGroup config proxyMap s = (inr group, s') /\
    Forall (fun p => exists hc, provider_healthCheck p = Some hc /\
                                hc_url hc = "" /\ hc_interval hc = 0%Z /\
                                hc_lazy hc = true)
      (adapter_providers group).
Proof.
  intros Hdec Htype Hn Hfilter Hsome Hfound Hinline Hpools.
  assert (Hhc : forall ps : list Proxy,
            newHealthCheck ps groupOption = inr (NewHealthCheck ps "" 0 true))
    by (intros ps; apply newHealthCheck_disabled; exact Htype).
  split; [exact Hhc|].
  assert (Ht : Type_ groupOption <> "")
    by (destruct Htype as [->| ->]; discriminate).
  destruct (compileFilter_ok _ Hfilter) as [f Hf].
  rewrite (ParseProxyGroup_resolve config proxyMap s groupOption f)
    by done.
  unfold resolve.
  (* the inline block *)
  assert (Hin : exists providers s1,
            inlineProviders groupOption proxyMap s = (inr providers, s1) /\
            Forall (is_pool s1) (Use groupOption) /\
            Forall (fun p => exists hc, provider_healthCheck p = Some hc /\
                       hc_url hc = "" /\ hc_interval hc = 0%Z /\
                       hc_lazy hc = true) providers).
  { destruct (Proxies groupOption) as [|x l] eqn:Hp.
    - exists [], s. split; [apply inlineProviders_skip; exact Hp|].
      split; [exact Hpools|constructor].
    - destruct Hinline as [Hfree Hnew]; [discriminate|].
      destruct (getProxies_loop_found _ _ Hfound []) as [ps Hps].
      fold (getProxies proxyMap (x :: l)) in Hps.
      eexists _, _. split.
      + apply (inlineProviders_run groupOption proxyMap s ps
                 (NewHealthCheck ps "" 0 true)); rewrite ?Hp; auto.
      + split.
        * eapply Forall_impl; [exact Hpools|]. intros name.
          apply registered_pool. exact Hfree.
        * constructor; [|constructor]. eexists. simpl. eauto. }
  destruct Hin as (providers & s1 & -> & Hpools1 & Hprov).
  (* the referenced providers *)
  assert (Hmerge : exists merged s2,
            mergeProviders groupOption f providers s1 = (inr merged, s2)).
  { unfold mergeProviders, getProviders. destruct (negb _); [|eauto].
    destruct (getProviders_loop_all groupOption f _ (Use groupOption)
                (Hhc []) [] s1 Hpools1) as (l & s2 & ->). eauto. }
  destruct Hmerge as (merged & s2 & Hmerge). rewrite Hmerge.
  apply mergeProviders_ok in Hmerge.
  destruct Hmerge as (derived & -> & Hall & _).
  assert (Hder : Forall (fun p => exists hc, provider_healthCheck p = Some hc /\
                       hc_url hc = "" /\ hc_interval hc = 0%Z /\
                       hc_lazy hc = true) derived).
  { clear -Hall Hhc. induction Hall as [|n p ns ps' Hnp _ IH]; constructor;
      [|exact IH].
    destruct Hnp as (pp & hc & _ & Hbuilt & ->). rewrite Hhc in Hbuilt.
    injection Hbuilt as <-. eexists. simpl. eauto. }
  assert (Hall' : Forall (fun p => exists hc, provider_healthCheck p = Some hc /\
                       hc_url hc = "" /\ hc_interval hc = 0%Z /\
                       hc_lazy hc = true)
                    (merge_order groupOption providers derived)).
  { unfold merge_order. destruct (String.eqb _ _); apply Forall_app; auto. }
  unfold dispatch.
  destruct Htype as [Hty|Hty]; rewrite Hty; simpl; eauto.
Qed.

(** C5 (as amended).  A configuration whose strategy kind is neither
    "select" nor "relay", that lists at least one of [proxies] and [use]
    and whose [url] is empty or whose [interval] is zero never resolves.
    The failure is the missing-health-check error, prefixed with the
    group's name and with the store untouched, when no earlier check
    fails first: [name] and [type] are not empty, the filter is empty or
    compiles, and either the inline proxies all resolve and the group's
    name is free in the registry, or there are no inline proxies and the
    first [use] name resolves to a dynamic pool. *)
Theorem ParseProxyGroup_missing_health_check config proxyMap s groupOption :
  structure_Decode config defaultGroupOption = inr groupOption ->
  Type_ groupOption <> "select" -> Type_ groupOption <> "relay" ->
  Proxies groupOption <> [] \/ Use groupOption <> [] ->
  URL groupOption = "" \/ Interval groupOption = 0%Z ->
  (exists err s', ParseProxyGroup config proxyMap s = (inl err, s')) /\
  (Type_ groupOption <> "" -> Name groupOption <> "" ->
   (Filter groupOption = "" \/
    exists regx, regexp_Compile (Filter groupOption) = inr regx) ->
   Forall (fun name => is_Some (proxyMap !! name)) (Proxies groupOption) ->
   (Proxies groupOption <> [] -> providersMap s !! Name groupOption = None) ->
   (Proxies groupOption = [] ->
    exists name rest, Use groupOption = name :: rest /\ is_pool s name) ->
   ParseProxyGroup config proxyMap s
   = (inl (wrap_with_name (Name groupOption) errMissHealthCheck), s) /\
   errors_Is (wrap_with_name (Name groupOption) errMissHealthCheck)
     errMissHealthCheck = true).
Proof.
  intros Hdec Hsel Hrel Hsome Hmiss.
  assert (Hhc : forall ps : list Proxy,
            newHealthCheck ps groupOption = inl errMissHealthCheck)
    by (intros ps; apply newHealthCheck_missing; assumption).
  split.
  - destruct (ParseProxyGroup_cases config proxyMap s)
      as [[_ Hfail]|(o & Ho & Hrest)]; [eauto|].
    assert (o = groupOption) as -> by congruence.
    destruct Hrest as [[_ Hfail]|(_ & _ & [(c & _ & Hfail)|
      (f & Hf & [(_ & _ & Hfail)|[_ Hbody]])])]; eauto.
    rewrite Hbody. unfold resolve.
    destruct (inlineProviders groupOption proxyMap s) as [r s1] eqn:Hin.
    apply inlineProviders_cases in Hin.
    destruct Hin as [(Hnil & -> & ->)|[(_ & _ & e & -> & _)|
      (_ & ps & hc & _ & _ & Hbuilt & _)]]; [|eauto|].
    + destruct Hsome as [?|Huse]; [contradiction|].
      destruct (Use groupOption) as [|name rest] eqn:Hu; [contradiction|].
      destruct (mergeProviders_stops groupOption f [] s [] name rest)
        as (s0 & _ & Hs0 & Hstop); [exact Hu|constructor|done|].
      rewrite (Hs0 eq_refl) in Hstop.
      assert (exists err s',
                getProviders_loop groupOption f [name] [] s = (inl err, s'))
        as (err & s' & Hloop).
      { simpl. destruct (providersMap s !! name) as [[pp| |]|]; eauto.
        rewrite Hhc. eauto. }
      rewrite (Hstop _ _ Hloop). eauto.
    + rewrite Hhc in Hbuilt. discriminate.
  - intros Ht Hn Hfilter Hfound Hfree Hfirst. split; [|reflexivity].
    destruct (compileFilter_ok _ Hfilter) as [f Hf].
    rewrite (ParseProxyGroup_resolve config proxyMap s groupOption f)
      by done.
    unfold resolve.
    destruct (Proxies groupOption) as [|x l] eqn:Hp.
    + rewrite inlineProviders_skip by exact Hp.
      destruct Hfirst as (name & rest & Hu & pp & Hname); [reflexivity|].
      destruct (mergeProviders_stops groupOption f [] s [] name rest)
        as (s0 & _ & Hs0 & Hstop); [exact Hu|constructor|done|].
      rewrite (Hs0 eq_refl) in Hstop.
      erewrite Hstop; [reflexivity|].
      simpl. rewrite Hname, Hhc. reflexivity.
    + destruct (getProxies_loop_found _ _ Hfound []) as [ps Hps].
      fold (getProxies proxyMap (x :: l)) in Hps.
      unfold inlineProviders. rewrite Hp, Hps, Hfree, Hhc by discriminate.
      reflexivity.
Qed.

(** C6 (as amended).  Take a configuration that reaches the
    duplicate-name guard: [name] and [type] are not empty, the filter is
    empty or compiles, and the inline proxies, of which there is at least
    one, all resolve.  If the registry already has an entry under the
    group's name, resolution fails with the duplicate-provider error,
    prefixed with the group's name, and the store is untouched.
    Otherwise, once the health-check policy and the synthetic provider
    are built, the synthetic provider is registered under the group's
    name and nothing else in the registry changes, whether or not the
    rest of the call succeeds. *)
Theorem ParseProxyGroup_duplicate_guard config proxyMap s groupOption ps :
  structure_Decode config defaultGroupOption = inr groupOption ->
  Type_ groupOption <> "" -> Name groupOption <> "" ->
  (Filter groupOption = "" \/
   exists regx, regexp_Compile (Filter groupOption) = inr regx) ->
  Proxies groupOption <> [] ->
  getProxies proxyMap (Proxies groupOption) = inr ps ->
  (is_Some (providersMap s !! Name groupOption) ->
   ParseProxyGroup config proxyMap s
   = (inl (wrap_with_name (Name groupOption) errDuplicateProvider), s) /\
   errors_Is (wrap_with_name (Name groupOption) errDuplicateProvider)
     errDuplicateProvider = true) /\
  (providersMap s !! Name groupOption = None ->
   forall hc,
     newHealthCheck ps groupOption = inr hc ->
     NewCompatibleProvider_err (Name groupOption) ps hc = None ->
     providersMap (ParseProxyGroup config proxyMap s).2
     = <[Name groupOption := CompatibleProvider (Name groupOption) ps hc]>
         (providersMap s)).
Proof.
  intros Hdec Ht Hn Hfilter Hinline Hps.
  destruct (compileFilter_ok _ Hfilter) as [f Hf].
  rewrite (ParseProxyGroup_resolve config proxyMap s groupOption f)
    by auto.
  unfold resolve. split.
  - intros [old Hold]. split; [|reflexivity].
    unfold inlineProviders.
    apply length_eqb_cons in Hinline. rewrite Hinline. simpl.
    rewrite Hps, Hold. reflexivity.
  - intros Hfree hc Hhc Hnew.
    rewrite (inlineProviders_run groupOption proxyMap s ps hc) by done.
    pose proof (mergeProviders_registry groupOption f
                  [synthetic groupOption ps hc]
                  (registered groupOption ps hc s)) as Hreg.
    destruct (mergeProviders _ _ _ _) as [[e|merged] s2]; exact Hreg.
Qed.

End Facts.

(** * The claims on concrete groups *)

Import Example.

(* [shared_registry] is what resolving the group G leaves behind *)
Example shared_registry_resolved :
  (ParseProxyGroup (groupConfig "G" "select" ["A"] [] "" 0)
     endpoints registry).2
  = shared_registry.
Proof. run. Qed.

(** C1, counterexample.  A group with the inline proxy A and the
    unresolved reference Q fails, and so does a group of an unknown kind
    with the inline proxy A; both calls have bound the group's name in
    the registry, where it was free. *)
Lemma ParseProxyGroup_error_registry_changed :
  (ParseProxyGroup (groupConfig "g" "select" ["A"] ["Q"] "" 0)
     endpoints registry).1
  = inl (wrap_with_name "g" (not_found "Q")) /\
  (ParseProxyGroup (groupConfig "g" "bogus" ["A"] [] "http://x" 30)
     endpoints registry).1
  = inl (unsupported_type "g" "bogus") /\
  providersMap registry !! "g" = None /\
  providersMap
    (ParseProxyGroup (groupConfig "g" "select" ["A"] ["Q"] "" 0)
       endpoints registry).2 !! "g"
  = Some (CompatibleProvider "g" [1%nat] (NewHealthCheck [1%nat] "" 0 true)) /\
  providersMap
    (ParseProxyGroup (groupConfig "g" "bogus" ["A"] [] "http://x" 30)
       endpoints registry).2 !! "g"
  = Some (CompatibleProvider "g" [1%nat]
            (NewHealthCheck [1%nat] "http://x" 30 true)) /\
  providersMap
    (ParseProxyGroup (groupConfig "g" "select" ["A"] ["Q"] "" 0)
       endpoints registry).2
  <> providersMap registry.
Proof.
  repeat split; try run.
  intros Hsame. apply (f_equal (fun m => m !! "g")) in Hsame.
  vm_compute in Hsame. discriminate.
Qed.

Lemma ParseProxyGroup_error_registry_witness :
  providersMap
    (ParseProxyGroup (groupConfig "g" "select" ["A"] ["Q"] "" 0)
       endpoints registry).2
  = providersMap registry \/
  exists groupOption ps hc,
    Decode (groupConfig "g" "select" ["A"] ["Q"] "" 0) defaultGroupOption
    = inr groupOption /\
    Proxies groupOption <> [] /\
    getProxies endpoints (Proxies groupOption) = inr ps /\
    newHealthCheck ps groupOption = inr hc /\
    providersMap registry !! Name groupOption = None /\
    providersMap
      (ParseProxyGroup (groupConfig "g" "select" ["A"] ["Q"] "" 0)
         endpoints registry).2
    = <[Name groupOption := CompatibleProvider (Name groupOption) ps hc]>
        (providersMap registry) /\
    ((Use groupOption <> [] /\
      exists name,
        name ∈ Use groupOption /\
        (wrap_with_name "g" (not_found "Q")
         = wrap_with_name (Name groupOption) (not_found name) \/
         wrap_with_name "g" (not_found "Q")
         = wrap_with_name (Name groupOption) (cant_contain name))) \/
     wrap_with_name "g" (not_found "Q")
     = unsupported_type (Name groupOption) (Type_ groupOption) \/
     (Type_ groupOption = "load-balance" /\
      exists merged,
        NewLoadBalance_err groupOption merged
          (parseStrategy (groupConfig "g" "select" ["A"] ["Q"] "" 0))
        = Some (wrap_with_name "g" (not_found "Q")))).
Proof.
  refine (ParseProxyGroup_error_registry
            (groupConfig "g" "select" ["A"] ["Q"] "" 0) endpoints registry
            (wrap_with_name "g" (not_found "Q"))
            (ParseProxyGroup (groupConfig "g" "select" ["A"] ["Q"] "" 0)
               endpoints registry).2 _).
  run.
Defined.

(** C2, counterexample.  A group named g with an empty [type] fails with
    the bare format error, whose text does not start with g; a record
    that cannot be decoded fails with the same error. *)
Lemma ParseProxyGroup_format_error_bare :
  ParseProxyGroup (groupConfig "g" "" ["A"] [] "" 0) endpoints registry
  = (inl errFormat, registry) /\
  ParseProxyGroup ∅ endpoints registry = (inl errFormat, registry) /\
  Error errFormat = "format error" /\
  String.prefix "g" (Error errFormat) = false.
Proof. repeat split; run. Qed.

Lemma ParseProxyGroup_error_prefix_witness :
  String.prefix "g" (Error (wrap_with_name "g" (not_found "Q"))) = true.
Proof.
  destruct (ParseProxyGroup_error_prefix
              (groupConfig "g" "select" ["A"] ["Q"] "" 0) endpoints registry
              (wrap_with_name "g" (not_found "Q"))
              (ParseProxyGroup (groupConfig "g" "select" ["A"] ["Q"] "" 0)
                 endpoints registry).2)
    as [[Hbare _]|(groupOption & Hdec & _ & _ & [Hprefix|[Hlb _]])].
  - run.
  - discriminate Hbare.
  - vm_compute in Hdec. injection Hdec as <-. exact Hprefix.
  - vm_compute in Hdec. injection Hdec as <-. discriminate Hlb.
Defined.

Lemma ParseProxyGroup_provider_order_witness :
  exists ps hc filterRegx derived,
    getProxies endpoints ["A"; "B"] = inr ps /\
    newHealthCheck ps
      (groupOptionOf "g" "fallback" ["A"; "B"] ["P"] "http://x" 30)
    = inr hc /\
    compileFilter
      (groupOptionOf "g" "fallback" ["A"; "B"] ["P"] "http://x" 30)
    = inr filterRegx /\
    Forall2
      (derived_from
         (groupOptionOf "g" "fallback" ["A"; "B"] ["P"] "http://x" 30)
         filterRegx registry)
      ["P"] derived /\
    [ProxyFilterProvider "P-in-g" 7%positive
       (NewHealthCheck [] "http://x" 30 true) None;
     CompatibleProvider "g" [1%nat; 2%nat]
       (NewHealthCheck [1%nat; 2%nat] "http://x" 30 true)]
    = derived ++ [CompatibleProvider "g" ps hc].
Proof.
  refine (ParseProxyGroup_provider_order
            (groupConfig "g" "fallback" ["A"; "B"] ["P"] "http://x" 30)
            endpoints registry
            (groupOptionOf "g" "fallback" ["A"; "B"] ["P"] "http://x" 30)
            (Fallback
               (groupOptionOf "g" "fallback" ["A"; "B"] ["P"] "http://x" 30)
               [ProxyFilterProvider "P-in-g" 7%positive
                  (NewHealthCheck [] "http://x" 30 true) None;
                CompatibleProvider "g" [1%nat; 2%nat]
                  (NewHealthCheck [1%nat; 2%nat] "http://x" 30 true)])
            (ParseProxyGroup
               (groupConfig "g" "fallback" ["A"; "B"] ["P"] "http://x" 30)
               endpoints registry).2 _ _ _ _);
    [run | discriminate | discriminate | run].
Defined.

Lemma ParseProxyGroup_select_relay_witness :
  (forall ps : list nat,
     newHealthCheck ps
       (groupOptionOf "g" "select" ["A"; "B"; "A"] ["P"] "http://x" 30)
     = inr (NewHealthCheck ps "" 0 true)) /\
  exists group s',
    ParseProxyGroup
      (groupConfig "g" "select" ["A"; "B"; "A"] ["P"] "http://x" 30)
      endpoints registry = (inr group, s') /\
    Forall (fun p => exists hc, provider_healthCheck p = Some hc /\
                                hc_url hc = "" /\ hc_interval hc = 0%Z /\
                                hc_lazy hc = true)
      (adapter_providers group).
Proof.
  refine (ParseProxyGroup_select_relay
            (groupConfig "g" "select" ["A"; "B"; "A"] ["P"] "http://x" 30)
            endpoints registry
            (groupOptionOf "g" "select" ["A"; "B"; "A"] ["P"] "http://x" 30)
            _ _ _ _ _ _ _ _).
  - run.
  - left. reflexivity.
  - discriminate.
  - left. reflexivity.
  - left. discriminate.
  - found.
  - intros _. split; [run | reflexivity].
  - found.
Defined.

(** C5, counterexample.  A latency-ranked group without [url] whose only
    inline proxy, C, is not in the endpoint registry fails on the proxy:
    the error is not the missing-health-check error. *)
Lemma ParseProxyGroup_unresolved_before_health_check :
  ParseProxyGroup (groupConfig "g" "url-test" ["C"] [] "" 0)
    endpoints registry
  = (inl (wrap_with_name "g" (not_found "C")), registry) /\
  errors_Is (wrap_with_name "g" (not_found "C")) errMissHealthCheck = false.
Proof. split; run. Qed.

Lemma ParseProxyGroup_missing_health_check_witness :
  (exists err s',
     ParseProxyGroup (groupConfig "g" "url-test" ["A"] ["P"] "" 30)
       endpoints registry = (inl err, s')) /\
  (ParseProxyGroup (groupConfig "g" "url-test" ["A"] ["P"] "" 30)
     endpoints registry
   = (inl (wrap_with_name "g" errMissHealthCheck), registry) /\
   errors_Is (wrap_with_name "g" errMissHealthCheck) errMissHealthCheck
   = true) /\
  (ParseProxyGroup (groupConfig "g" "fallback" [] ["P"] "http://x" 0)
     endpoints registry
   = (inl (wrap_with_name "g" errMissHealthCheck), registry) /\
   errors_Is (wrap_with_name "g" errMissHealthCheck) errMissHealthCheck
   = true).
Proof.
  destruct (ParseProxyGroup_missing_health_check
              (groupConfig "g" "url-test" ["A"] ["P"] "" 30)
              endpoints registry
              (groupOptionOf "g" "url-test" ["A"] ["P"] "" 30))
    as [Hfails Hkind].
  { run. } { discriminate. } { discriminate. } { left. discriminate. }
  { left. reflexivity. }
  destruct (ParseProxyGroup_missing_health_check
              (groupConfig "g" "fallback" [] ["P"] "http://x" 0)
              endpoints registry
              (groupOptionOf "g" "fallback" [] ["P"] "http://x" 0))
    as [_ Hkind'].
  { run. } { discriminate. } { discriminate. } { right. discriminate. }
  { right. reflexivity. }
  split; [exact Hfails|]. split.
  - apply Hkind.
    + discriminate.
    + discriminate.
    + left. reflexivity.
    + found.
    + intros _. run.
    + discriminate.
  - apply Hkind'.
    + discriminate.
    + discriminate.
    + left. reflexivity.
    + constructor.
    + intros Hne. contradiction Hne. reflexivity.
    + intros _. exists "P", []. split; [reflexivity|]. eexists. run.
Defined.

(** C6, counterexample.  With G already in the registry, a group named G
    whose inline proxy C is unknown fails on the proxy, not with the
    duplicate-provider error; and a latency-ranked group g without [url],
    whose name is free, fails before anything is registered under g. *)
Lemma ParseProxyGroup_duplicate_guard_not_reached :
  is_Some (providersMap shared_registry !! "G") /\
  ParseProxyGroup (groupConfig "G" "select" ["C"] [] "" 0)
    endpoints shared_registry
  = (inl (wrap_with_name "G" (not_found "C")), shared_registry) /\
  errors_Is (wrap_with_name "G" (not_found "C")) errDuplicateProvider
  = false /\
  providersMap registry !! "g" = None /\
  ParseProxyGroup (groupConfig "g" "url-test" ["A"] [] "" 0)
    endpoints registry
  = (inl (wrap_with_name "g" errMissHealthCheck), registry).
Proof. repeat split; try run. eexists. run. Qed.

Lemma ParseProxyGroup_duplicate_guard_witness :
  (ParseProxyGroup (groupConfig "G" "url-test" ["A"] [] "http://x" 30)
     endpoints shared_registry
   = (inl (wrap_with_name "G" errDuplicateProvider), shared_registry) /\
   errors_Is (wrap_with_name "G" errDuplicateProvider) errDuplicateProvider
   = true) /\
  providersMap
    (ParseProxyGroup (groupConfig "g" "url-test" ["A"] [] "http://x" 30)
       endpoints shared_registry).2
  = <["g" := CompatibleProvider "g" [1%nat]
               (NewHealthCheck [1%nat] "http://x" 30 true)]>
      (providersMap shared_registry).
Proof.
  split.
  - refine (proj1 (ParseProxyGroup_duplicate_guard
                     (groupConfig "G" "url-test" ["A"] [] "http://x" 30)
                     endpoints shared_registry
                     (groupOptionOf "G" "url-test" ["A"] [] "http://x" 30)
                     [1%nat] _ _ _ _ _ _) _).
    + run.
    + discriminate.
    + discriminate.
    + left. reflexivity.
    + discriminate.
    + run.
    + eexists. run.
  - refine (proj2 (ParseProxyGroup_duplicate_guard
                     (groupConfig "g" "url-test" ["A"] [] "http://x" 30)
                     endpoints shared_registry
                     (groupOptionOf "g" "url-test" ["A"] [] "http://x" 30)
                     [1%nat] _ _ _ _ _ _) _
                  (NewHealthCheck [1%nat] "http://x" 30 true) _ _).
    + run.
    + discriminate.
    + discriminate.
    + left. reflexivity.
    + discriminate.
    + run.
    + run.
    + run.
    + reflexivity.
Defined.

(** C7, counterexample.  In the registry, G is a group's synthetic
    provider, P a dynamic pool and Q is unbound.  A group referring to Q
    and then G fails on Q with the not-found error, although G is not a
    dynamic pool; a group referring to G and then P fails on G, and the
    reference to the pool P has yielded no derived provider: P has no
    dependent after the call. *)
Lemma ParseProxyGroup_use_reference_not_reached :
  providersMap shared_registry !! "G"
  = Some (CompatibleProvider "G" [1%nat] (NewHealthCheck [1%nat] "" 0 true)) /\
  (ParseProxyGroup (groupConfig "g" "select" [] ["Q"; "G"] "" 0)
     endpoints shared_registry).1
  = inl (wrap_with_name "g" (not_found "Q")) /\
  wrap_with_name "g" (not_found "Q") <> wrap_with_name "g" (cant_contain "G") /\
  providersMap shared_registry !! "P" = Some (ProxySetProvider 7%positive) /\
  (ParseProxyGroup (groupConfig "g" "select" [] ["G"; "P"] "" 0)
     endpoints shared_registry).1
  = inl (wrap_with_name "g" (cant_contain "G")) /\
  dependents
    (ParseProxyGroup (groupConfig "g" "select" [] ["G"; "P"] "" 0)
       endpoints shared_registry).2 7%positive
  = [].
Proof. repeat split; try run. discriminate. Qed.

Lemma ParseProxyGroup_use_references_witness :
  (ParseProxyGroup (groupConfig "g" "select" [] ["P"; "G"] "" 0)
     endpoints shared_registry).1
  = inl (wrap_with_name "g" (cant_contain "G")) /\
  exists derived,
    Forall2
      (derived_from (groupOptionOf "g" "select" [] ["P"; "P"] "" 0) None
         shared_registry)
      ["P"; "P"] derived /\
    Forall (fun p => exists pp,
              source_of p = Some pp /\
              p ∈ dependents
                    (ParseProxyGroup
                       (groupConfig "g" "select" [] ["P"; "P"] "" 0)
                       endpoints shared_registry).2 pp) derived /\
    [ProxyFilterProvider "P-in-g" 7%positive (NewHealthCheck [] "" 0 true)
       None;
     ProxyFilterProvider "P-in-g" 7%positive (NewHealthCheck [] "" 0 true)
       None]
    = [] ++ derived.
Proof.
  split.
  - refine (proj1 (ParseProxyGroup_use_references
                     (groupConfig "g" "select" [] ["P"; "G"] "" 0)
                     endpoints shared_registry
                     (groupOptionOf "g" "select" [] ["P"; "G"] "" 0)
                     None [] shared_registry _ _ _ _ _)
                  ["P"] "G" []
                  (CompatibleProvider "G" [1%nat]
                     (NewHealthCheck [1%nat] "" 0 true)) _ _ _ _ _).
    + run.
    + discriminate.
    + discriminate.
    + reflexivity.
    + run.
    + reflexivity.
    + found.
    + intros _. eexists. run.
    + run.
    + discriminate.
  - refine (proj2 (ParseProxyGroup_use_references
                     (groupConfig "g" "select" [] ["P"; "P"] "" 0)
                     endpoints shared_registry
                     (groupOptionOf "g" "select" [] ["P"; "P"] "" 0)
                     None [] shared_registry _ _ _ _ _)
                  (Selector (groupOptionOf "g" "select" [] ["P"; "P"] "" 0)
                     [ProxyFilterProvider "P-in-g" 7%positive
                        (NewHealthCheck [] "" 0 true) None;
                      ProxyFilterProvider "P-in-g" 7%positive
                        (NewHealthCheck [] "" 0 true) None])
                  (ParseProxyGroup
                     (groupConfig "g" "select" [] ["P"; "P"] "" 0)
                     endpoints shared_registry).2 _).
    + run.
    + discriminate.
    + discriminate.
    + reflexivity.
    + run.
    + run.
Defined.

Lemma getProxies_order_witness :
  (Forall2 (fun name p => endpoints !! name = Some p)
     ["A"; "B"; "A"] [1%nat; 2%nat; 1%nat] /\
   length [1%nat; 2%nat; 1%nat] = length ["A"; "B"; "A"]) /\
  getProxies endpoints ["A"; "C"; "D"] = inl (not_found "C") /\
  (exists handles, getProxies endpoints ["A"; "B"; "A"] = inr handles) /\
  exists handles hc (rest : list (ProxyProvider nat string)),
    [CompatibleProvider "g" [1%nat; 2%nat; 1%nat]
       (NewHealthCheck [1%nat; 2%nat; 1%nat] "" 0 true);
     ProxyFilterProvider "P-in-g" 7%positive (NewHealthCheck [] "" 0 true)
       None]
    = CompatibleProvider "g" handles hc :: rest /\
    Forall2 (fun name p => endpoints !! name = Some p)
      ["A"; "B"; "A"] handles.
Proof.
  pose proof (getProxies_order endpoints ["A"; "B"; "A"]
                [1%nat; 2%nat; 1%nat] [] "" []
                (groupConfig "g" "select" ["A"; "B"; "A"] ["P"] "" 0)
                registry
                (groupOptionOf "g" "select" ["A"; "B"; "A"] ["P"] "" 0)
                (Selector
                   (groupOptionOf "g" "select" ["A"; "B"; "A"] ["P"] "" 0)
                   [CompatibleProvider "g" [1%nat; 2%nat; 1%nat]
                      (NewHealthCheck [1%nat; 2%nat; 1%nat] "" 0 true);
                    ProxyFilterProvider "P-in-g" 7%positive
                      (NewHealthCheck [] "" 0 true) None])
                (ParseProxyGroup
                   (groupConfig "g" "select" ["A"; "B"; "A"] ["P"] "" 0)
                   endpoints registry).2)
    as (Hok & _ & Hall & Hselect).
  pose proof (getProxies_order endpoints ["A"; "C"; "D"] [] ["A"] "C" ["D"]
                ∅ registry defaultGroupOption
                (Selector defaultGroupOption []) registry)
    as (_ & Hmissing & _ & _).
  split; [apply Hok; run|].
  split; [apply Hmissing; [reflexivity | found | run]|].
  split; [apply Hall; found|].
  apply Hselect; [run | reflexivity | discriminate | run].
Defined.

(** C9, counterexample.  A group named g whose [type] is empty and which
    lists neither [proxies] nor [use] fails with the format error, and a
    fixed-select group g without references whose filter does not
    compile fails with the invalid-filter error; neither is the
    missing-reference error. *)
Lemma ParseProxyGroup_no_reference_format_error :
  Decode (groupConfig "g" "" [] [] "" 0) defaultGroupOption
  = inr (groupOptionOf "g" "" [] [] "" 0) /\
  ParseProxyGroup (groupConfig "g" "" [] [] "" 0) endpoints registry
  = (inl errFormat, registry) /\
  errors_Is errFormat errMissProxy = false /\
  Decode (<["filter" := VString "("]> (groupConfig "g" "select" [] [] "" 0))
    defaultGroupOption
  = inr (mkGroupCommonOption "g" "select" [] [] "" 0 true false false "(") /\
  (ParseProxyGroup (<["filter" := VString "("]>
                      (groupConfig "g" "select" [] [] "" 0))
     endpoints registry).1
  = inl (wrap_filter "g"
           (errors_New "error parsing regexp: missing closing ): `(`")) /\
  errors_Is
    (wrap_filter "g"
       (errors_New "error parsing regexp: missing closing ): `(`"))
    errMissProxy = false.
Proof. repeat split; run. Qed.

Lemma ParseProxyGroup_no_reference_witness :
  (exists err,
     ParseProxyGroup (groupConfig "g" "select" [] [] "" 0) endpoints registry
     = (inl err, registry)) /\
  ParseProxyGroup (groupConfig "g" "select" [] [] "" 0) endpoints registry
  = (inl (wrap_with_name "g" errMissProxy), registry) /\
  errors_Is (wrap_with_name "g" errMissProxy) errMissProxy = true.
Proof.
  destruct (ParseProxyGroup_no_reference
              (groupConfig "g" "select" [] [] "" 0) endpoints registry
              (groupOptionOf "g" "select" [] [] "" 0))
    as [Hfails Hkind]; [run | reflexivity | reflexivity |].
  split; [exact Hfails|].
  apply Hkind; [discriminate | discriminate | left; reflexivity].
Defined.

Lemma ParseProxyGroup_registry_frame_witness :
  providersMap
    (ParseProxyGroup (groupConfig "g" "fallback" ["A"] ["P"] "http://x" 30)
       endpoints registry).2 !! "P"
  = Some (ProxySetProvider 7%positive) /\
  (providersMap registry !! "g" = None /\
   exists ps hc,
     providersMap
       (ParseProxyGroup (groupConfig "g" "fallback" ["A"] ["P"] "http://x" 30)
          endpoints registry).2
     = <["g" := CompatibleProvider "g" ps hc]> (providersMap registry)) /\
  providersMap
    (ParseProxyGroup (groupConfig "g" "fallback" [] ["P"] "http://x" 30)
       endpoints registry).2
  = providersMap registry /\
  inlineProviders (groupOptionOf "g" "fallback" [] ["P"] "http://x" 30)
    endpoints registry
  = (inr [], registry).
Proof.
  destruct (ParseProxyGroup_registry_frame
              (groupConfig "g" "fallback" ["A"] ["P"] "http://x" 30)
              endpoints registry) as (Hkept & Hadds & _).
  destruct (ParseProxyGroup_registry_frame
              (groupConfig "g" "fallback" [] ["P"] "http://x" 30)
              endpoints registry) as (_ & _ & Huse_only).
  split; [apply Hkept; run|].
  split.
  - refine (Hadds (groupOptionOf "g" "fallback" ["A"] ["P"] "http://x" 30)
              (Fallback
                 (groupOptionOf "g" "fallback" ["A"] ["P"] "http://x" 30)
                 [ProxyFilterProvider "P-in-g" 7%positive
                    (NewHealthCheck [] "http://x" 30 true) None;
                  CompatibleProvider "g" [1%nat]
                    (NewHealthCheck [1%nat] "http://x" 30 true)])
              (ParseProxyGroup
                 (groupConfig "g" "fallback" ["A"] ["P"] "http://x" 30)
                 endpoints registry).2 _ _ _);
      [run | run | discriminate].
  - refine (Huse_only
              (groupOptionOf "g" "fallback" [] ["P"] "http://x" 30) _ _);
      [run | reflexivity].
Defined.

(** * Further properties of the parser *)

Section Coverage.

Context {Proxy Regexp URLTestOption : Type}.
Context {collab : Collaborators Proxy Regexp URLTestOption}.

Implicit Types (groupOption : GroupCommonOption) (s : Store Proxy Regexp).
Implicit Types (proxyMap : gmap string Proxy) (config : Config).

Lemma errors_Is_refl (err : error) : errors_Is err err = true.
Proof. destruct err; simpl; rewrite decide_True by reflexivity; reflexivity. Qed.

Lemma errors_Is_wrapped (text : string) (err target : error) :
  errors_Is err target = true ->
  errors_Is (fmt_Errorf_w text err) target = true.
Proof. intros Hin. simpl. destruct (decide _); [reflexivity|exact Hin]. Qed.

(** X1.  A group with a non-empty [name] and [type] whose filter is not
    empty and does not compile fails with the invalid-filter error: its
    text starts with the group's name, it wraps the compiler's error, and
    the store is returned untouched, whatever the group lists. *)
Theorem ParseProxyGroup_invalid_filter config proxyMap s groupOption
    (cause : error) :
  structure_Decode config defaultGroupOption = inr groupOption ->
  Type_ groupOption <> "" -> Name groupOption <> "" ->
  Filter groupOption <> "" ->
  regexp_Compile (Filter groupOption) = inl cause ->
  ParseProxyGroup config proxyMap s
  = (inl (wrap_filter (Name groupOption) cause), s) /\
  Error (wrap_filter (Name groupOption) cause)
  = Name groupOption +:+ ": invalid filter regex: " +:+ Error cause /\
  String.prefix (Name groupOption)
    (Error (wrap_filter (Name groupOption) cause)) = true /\
  errors_Is (wrap_filter (Name groupOption) cause) cause = true.
Proof.
  intros Hdec Ht Hn Hf Hcause. split; [|split; [reflexivity|split]].
  - unfold ParseProxyGroup. rewrite Hdec.
    apply String.eqb_neq in Ht, Hn, Hf. rewrite Ht, Hn. simpl.
    unfold compileFilter. rewrite Hf, Hcause. reflexivity.
  - apply prefix_append.
  - apply errors_Is_wrapped, errors_Is_refl.
Qed.

(** X2.  A health-check policy that [newHealthCheck] builds watches
    exactly the endpoints it was given and has an interval in the range
    of a 64-bit unsigned integer.  For "select" and "relay" it is the
    disabled policy.  For any other kind the URL is the configured one
    and not empty, the laziness is the configured one, and the interval
    is the configured one converted to unsigned: a configured interval
    in the range of a 64-bit signed integer is never converted to zero,
    a non-negative one is kept, and a negative one is not rejected but
    becomes the configured value plus 2^64. *)
Theorem newHealthCheck_policy (ps : list Proxy) groupOption
    (hc : HealthCheck Proxy) :
  newHealthCheck ps groupOption = inr hc ->
  hc_proxies hc = ps /\
  (0 <= hc_interval hc < 2 ^ 64)%Z /\
  (((Type_ groupOption = "select" \/ Type_ groupOption = "relay") /\
    hc_url hc = "" /\ hc_interval hc = 0%Z /\ hc_lazy hc = true) \/
   (Type_ groupOption <> "select" /\ Type_ groupOption <> "relay" /\
    URL groupOption <> "" /\ Interval groupOption <> 0%Z /\
    hc_url hc = URL groupOption /\ hc_lazy hc = Lazy groupOption /\
    ((- 2 ^ 63 <= Interval groupOption < 2 ^ 63)%Z ->
     hc_interval hc <> 0%Z /\
     ((0 <= Interval groupOption)%Z ->
      hc_interval hc = Interval groupOption) /\
     ((Interval groupOption < 0)%Z ->
      hc_interval hc = (Interval groupOption + 2 ^ 64)%Z)))).
Proof.
  unfold newHealthCheck.
  destruct (String.eqb_spec (Type_ groupOption) "select") as [Hs|Hs];
    [intros [= <-]; simpl; repeat split; auto; lia|].
  destruct (String.eqb_spec (Type_ groupOption) "relay") as [Hr|Hr];
    [intros [= <-]; simpl; repeat split; auto; lia|].
  simpl.
  destruct (String.eqb_spec (URL groupOption) "") as [Hu|Hu];
    [discriminate|].
  destruct (Z.eqb_spec (Interval groupOption) 0) as [Hi|Hi];
    [discriminate|].
  simpl. intros [= <-]. simpl. split; [reflexivity|]. unfold uint.
  split; [apply Z.mod_pos_bound; lia|].
  right. do 6 (split; [done|]). intros Hrange.
  destruct (Z_lt_le_dec (Interval groupOption) 0) as [Hneg|Hpos].
  - assert (Interval groupOption mod 2 ^ 64
            = Interval groupOption + 2 ^ 64)%Z as ->.
    { symmetry. apply (Z.mod_unique _ _ (-1)); lia. }
    repeat split; lia.
  - rewrite Z.mod_small by lia. repeat split; lia.
Qed.

(** X3.  Resolving a concatenation of two name lists is resolving each
    and concatenating the handles: it succeeds exactly when both parts
    do, and a failure in the first part is reported even if the second
    part fails too. *)
Theorem getProxies_app (mapping : gmap string Proxy) (l1 l2 : list string) :
  getProxies mapping (l1 ++ l2)
  = match getProxies mapping l1 with
    | inl err => inl err
    | inr ps1 =>
        match getProxies mapping l2 with
        | inl err => inl err
        | inr ps2 => inr (ps1 ++ ps2)
        end
    end.
Proof.
  unfold getProxies.
  assert (Hshift : forall names acc,
            getProxies_loop mapping names acc
            = match getProxies_loop mapping names [] with
              | inl err => inl err
              | inr ps => inr (acc ++ ps)
              end).
  { induction names as [|name rest IH]; intros acc; simpl.
    - rewrite app_nil_r. reflexivity.
    - destruct (mapping !! name) as [p|]; [|reflexivity].
      rewrite (IH (acc ++ [p])), (IH [p]).
      destruct (getProxies_loop mapping rest []); [reflexivity|].
      rewrite <- app_assoc. reflexivity. }
  enough (Hgen : forall acc,
            getProxies_loop mapping (l1 ++ l2) acc
            = match getProxies_loop mapping l1 acc with
              | inl err => inl err
              | inr ps1 =>
                  match getProxies_loop mapping l2 [] with
                  | inl err => inl err
                  | inr ps2 => inr (ps1 ++ ps2)
                  end
              end) by apply Hgen.
  induction l1 as [|name rest IH]; intros acc; simpl.
  - apply Hshift.
  - destruct (mapping !! name) as [p|]; [|reflexivity]. apply IH.
Qed.

(** ** What [getProviders] leaves in the pools *)

Lemma observes_derived (pp q : addr) (name : string) (hc : HealthCheck Proxy)
    (filterRegx : option Regexp) :
  observes q (ProxyFilterProvider name pp hc filterRegx)
  = bool_decide (pp = q).
Proof.
  unfold observes. simpl.
  destruct (decide (pp = q)) as [->|Hne].
  - rewrite !bool_decide_eq_true_2; reflexivity.
  - rewrite !bool_decide_eq_false_2; congruence.
Qed.

(* the names that resolve to pools, taken one by one: what is built and
   what each pool has collected when the loop reaches the next name *)
Lemma getProviders_loop_prefix groupOption (filterRegx : option Regexp)
    (hc : HealthCheck Proxy) (before rest : list string) :
  newHealthCheck [] groupOption = inr hc ->
  forall acc s,
    Forall (is_pool s) before ->
    exists derived s0,
      Forall2 (derived_from groupOption filterRegx s) before derived /\
      providersMap s0 = providersMap s /\
      (forall pp, dependents s0 pp
                  = dependents s pp ++ List.filter (observes pp) derived) /\
      getProviders_loop groupOption filterRegx (before ++ rest) acc s
      = getProviders_loop groupOption filterRegx rest (acc ++ derived) s0.
Proof.
  intros Hhc. induction before as [|name before IH]; intros acc s Hpools.
  - exists [], s. split; [constructor|]. split; [reflexivity|].
    split; [intros pp; simpl; rewrite app_nil_r; reflexivity|].
    rewrite app_nil_r. reflexivity.
  - inversion Hpools as [|? ? [pp Hname] Hrest]; subst. simpl.
    rewrite Hname, Hhc.
    set (fp := ProxyFilterProvider (name +:+ "-in-" +:+ Name groupOption)
                 pp hc filterRegx).
    destruct (IH (acc ++ [fp]) (RegisterProvidersInUse pp fp s))
      as (derived & s0 & Hall & Hreg & Hdep & Heq).
    { eapply Forall_impl; [exact Hrest|]. intros n [q Hq]. exists q.
      exact Hq. }
    exists (fp :: derived), s0. split; [|split; [|split]].
    + constructor; [exists pp, hc; auto|].
      eapply Forall2_impl; [exact Hall|].
      intros n p (q & hc' & Hn & Hh & ->). exists q, hc'. auto.
    + rewrite Hreg. reflexivity.
    + intros q. rewrite Hdep, RegisterProvidersInUse_dependents. simpl.
      unfold fp at 2. rewrite observes_derived.
      destruct (decide (pp = q)) as [->|Hne].
      * rewrite bool_decide_eq_true_2 by reflexivity.
        rewrite <- app_assoc. reflexivity.
      * rewrite bool_decide_eq_false_2 by exact Hne. reflexivity.
    + rewrite Heq, <- app_assoc. reflexivity.
Qed.

Lemma derived_from_pool groupOption (filterRegx : option Regexp) s
    (names : list string) (derived : list (ProxyProvider Proxy Regexp)) :
  Forall2 (derived_from groupOption filterRegx s) names derived ->
  Forall (is_pool s) names.
Proof.
  induction 1 as [|n p ns ps' (pp & hc & Hn & _) _ IH]; constructor;
    [exists pp; exact Hn | exact IH].
Qed.

Lemma derived_from_functional groupOption (filterRegx : option Regexp) s
    (names : list string) (d1 d2 : list (ProxyProvider Proxy Regexp)) :
  Forall2 (derived_from groupOption filterRegx s) names d1 ->
  Forall2 (derived_from groupOption filterRegx s) names d2 ->
  d1 = d2.
Proof.
  intros H1. revert d2.
  induction H1 as [|n p ns ps' (pp & hc & Hn & Hh & ->) _ IH];
    intros d2 H2; inversion H2 as [|? q ? qs (pp' & hc' & Hn' & Hh' & ->) Hqs];
    subst; [reflexivity|].
  f_equal; [congruence | apply IH; exact Hqs].
Qed.

(* a successful block: what each pool has collected *)
Lemma mergeProviders_dependents groupOption (filterRegx : option Regexp)
    providers s merged s' :
  mergeProviders groupOption filterRegx providers s = (inr merged, s') ->
  exists derived,
    merged = merge_order groupOption providers derived /\
    Forall2 (derived_from groupOption filterRegx s) (Use groupOption)
      derived /\
    forall pp, dependents s' pp
               = dependents s pp ++ List.filter (observes pp) derived.
Proof.
  intros Hmerge.
  destruct (mergeProviders_ok _ _ _ _ _ _ Hmerge)
    as (derived & -> & Hall & _).
  exists derived. do 2 (split; [done|]).
  unfold mergeProviders, getProviders in Hmerge.
  destruct (length (Use groupOption) =? 0)%nat eqn:Hlen; simpl in Hmerge.
  { apply length_eqb_nil in Hlen. rewrite Hlen in Hall.
    inversion Hall; subst. injection Hmerge as _ <-.
    intros pp. simpl. rewrite app_nil_r. reflexivity. }
  destruct (Use groupOption) as [|name rest] eqn:Huse; [discriminate|].
  pose proof Hall as Hfirst.
  inversion Hfirst as [|? ? ? ? (pp & hc & _ & Hhc & _) _]; subst.
  destruct (getProviders_loop_prefix groupOption filterRegx hc
              (name :: rest) [] Hhc [] s (derived_from_pool _ _ _ _ _ Hall))
    as (derived' & s0 & Hall' & _ & Hdep & Heq).
  rewrite app_nil_r in Heq. rewrite Heq in Hmerge. simpl in Hmerge.
  injection Hmerge as _ <-.
  rewrite (derived_from_functional _ _ _ _ _ _ Hall Hall'). exact Hdep.
Qed.

Lemma observes_synthetic groupOption (ps : list Proxy)
    (hc : HealthCheck Proxy) (pp : addr) :
  observes pp (synthetic (Regexp := Regexp) groupOption ps hc) = false.
Proof. reflexivity. Qed.

(** X4.  After a successful resolution every dynamic pool has kept the
    dependents it had, in their order, followed by exactly the providers
    of the new adapter that are derived from it, in the adapter's order;
    a pool that the group does not refer to has what it had. *)
Theorem ParseProxyGroup_dependents config proxyMap s
    (group : ProxyAdapter Proxy Regexp URLTestOption) s' :
  ParseProxyGroup config proxyMap s = (inr group, s') ->
  forall pp,
    dependents s' pp
    = dependents s pp ++ List.filter (observes pp) (adapter_providers group).
Proof.
  intros Hrun pp.
  destruct (ParseProxyGroup_cases config proxyMap s)
    as [[_ Hfail]|(o & Ho & [[_ Hfail]|(_ & _ & [(c & _ & Hfail)|
      (f & _ & [(_ & _ & Hfail)|[_ Hbody]])])])]; try congruence.
  rewrite Hbody in Hrun. unfold resolve in Hrun.
  destruct (inlineProviders o proxyMap s) as [[e|providers] s1] eqn:Hin;
    [discriminate|].
  destruct (mergeProviders o f providers s1) as [[e|merged] s2] eqn:Hmerge;
    [discriminate|].
  injection Hrun as Hdisp <-. apply dispatch_providers in Hdisp.
  rewrite Hdisp.
  apply mergeProviders_dependents in Hmerge.
  destruct Hmerge as (derived & -> & _ & Hdep). rewrite Hdep.
  apply inlineProviders_cases in Hin.
  destruct Hin as [(_ & [= ->] & ->)|[(_ & _ & e & [=] & _)|
    (_ & ps & hc & _ & _ & _ & _ & [= ->] & ->)]];
    unfold merge_order; destruct (String.eqb _ _);
    rewrite ?app_nil_r, ?List.filter_app; simpl;
    rewrite ?app_nil_r; reflexivity.
Qed.


(** ** Successful resolutions *)

(* a successful call has gone through every block *)
Lemma ParseProxyGroup_success config proxyMap s
    (group : ProxyAdapter Proxy Regexp URLTestOption) s' :
  ParseProxyGroup config proxyMap s = (inr group, s') ->
  exists groupOption filterRegx providers s1 merged,
    structure_Decode config defaultGroupOption = inr groupOption /\
    Type_ groupOption <> "" /\ Name groupOption <> "" /\
    compileFilter groupOption = inr filterRegx /\
    (Proxies groupOption <> [] \/ Use groupOption <> []) /\
    inlineProviders groupOption proxyMap s = (inr providers, s1) /\
    mergeProviders groupOption filterRegx providers s1 = (inr merged, s') /\
    dispatch config groupOption merged = inr group.
Proof.
  intros Hrun.
  destruct (ParseProxyGroup_cases config proxyMap s)
    as [[_ Hfail]|(o & Ho & [[_ Hfail]|(Ht & Hn & [(c & _ & Hfail)|
      (f & Hf & [(_ & _ & Hfail)|[Hsome Hbody]])])])]; try congruence.
  rewrite Hbody in Hrun. unfold resolve in Hrun.
  destruct (inlineProviders o proxyMap s) as [[e|providers] s1] eqn:Hin;
    [discriminate|].
  destruct (mergeProviders o f providers s1) as [[e|merged] s2] eqn:Hmerge;
    [discriminate|].
  injection Hrun as Hdisp <-.
  exists o, f, providers, s1, merged. auto 10.
Qed.

Lemma dispatch_known config groupOption providers
    (group : ProxyAdapter Proxy Regexp URLTestOption) :
  dispatch config groupOption providers = inr group ->
  (Type_ groupOption = "url-test" /\
   group = URLTest groupOption providers (parseURLTestOption config)) \/
  (Type_ groupOption = "select" /\ group = Selector groupOption providers) \/
  (Type_ groupOption = "fallback" /\ group = Fallback groupOption providers) \/
  (Type_ groupOption = "load-balance" /\
   NewLoadBalance_err groupOption providers (parseStrategy config) = None /\
   group = LoadBalance groupOption providers (parseStrategy config)) \/
  (Type_ groupOption = "relay" /\ group = Relay groupOption providers).
Proof.
  unfold dispatch, NewLoadBalance.
  destruct (String.eqb_spec (Type_ groupOption) "url-test");
    [intros [= <-]; auto|].
  destruct (String.eqb_spec (Type_ groupOption) "select");
    [intros [= <-]; auto|].
  destruct (String.eqb_spec (Type_ groupOption) "fallback");
    [intros [= <-]; auto|].
  destruct (String.eqb_spec (Type_ groupOption) "load-balance").
  { destruct (NewLoadBalance_err _ _ _) eqn:Hlb; intros [= <-]. auto 10. }
  destruct (String.eqb_spec (Type_ groupOption) "relay");
    [intros [= <-]; auto 10|discriminate].
Qed.


(** X7.  A group whose kind is none of the five never resolves.  The
    kind is looked at last: when the inline proxies and the [use]
    references have been resolved, the call fails with the
    unsupported-type error, whose text names the group and the kind, and
    returns the store with everything those steps have registered. *)
Theorem ParseProxyGroup_unknown_kind config proxyMap s groupOption :
  structure_Decode config defaultGroupOption = inr groupOption ->
  ~ known_kind (Type_ groupOption) ->
  (exists err s', ParseProxyGroup config proxyMap s = (inl err, s')) /\
  (forall filterRegx providers s1 merged s2,
     Type_ groupOption <> "" -> Name groupOption <> "" ->
     Proxies groupOption <> [] \/ Use groupOption <> [] ->
     compileFilter groupOption = inr filterRegx ->
     inlineProviders groupOption proxyMap s = (inr providers, s1) ->
     mergeProviders groupOption filterRegx providers s1 = (inr merged, s2) ->
     ParseProxyGroup config proxyMap s
     = (inl (unsupported_type (Name groupOption) (Type_ groupOption)), s2) /\
     Error (unsupported_type (Name groupOption) (Type_ groupOption))
     = Name groupOption +:+ " unsupported type: " +:+ Type_ groupOption /\
     errors_Is (unsupported_type (Name groupOption) (Type_ groupOption))
       errType = true).
Proof.
  intros Hdec Hkind.
  assert (Hdisp : forall merged,
            dispatch config groupOption merged
            = inl (unsupported_type (Name groupOption) (Type_ groupOption))).
  { intros merged. unfold dispatch. unfold known_kind in Hkind.
    destruct (String.eqb_spec (Type_ groupOption) "url-test");
      [exfalso; apply Hkind; auto 10|].
    destruct (String.eqb_spec (Type_ groupOption) "select");
      [exfalso; apply Hkind; auto 10|].
    destruct (String.eqb_spec (Type_ groupOption) "fallback");
      [exfalso; apply Hkind; auto 10|].
    destruct (String.eqb_spec (Type_ groupOption) "load-balance");
      [exfalso; apply Hkind; auto 10|].
    destruct (String.eqb_spec (Type_ groupOption) "relay");
      [exfalso; apply Hkind; auto 10|].
    reflexivity. }
  split.
  - destruct (ParseProxyGroup config proxyMap s) as [[err|group] s'] eqn:Hrun;
      [eauto|].
    destruct (ParseProxyGroup_success _ _ _ _ _ Hrun)
      as (o & f & providers & s1 & merged & Ho & _ & _ & _ & _ & _ & _ & Hd).
    assert (o = groupOption) as -> by congruence.
    rewrite Hdisp in Hd. discriminate.
  - intros f providers s1 merged s2 Ht Hn Hsome Hf Hin Hmerge.
    split; [|split; reflexivity].
    rewrite (ParseProxyGroup_resolve config proxyMap s groupOption f)
      by done.
    unfold resolve. rewrite Hin, Hmerge, Hdisp. reflexivity.
Qed.

(** X8.  The adapter of a resolved group holds one provider for the
    inline proxies, if there are any, and one per [use] name, duplicates
    included; it is never without a provider. *)
Theorem ParseProxyGroup_provider_count config proxyMap s groupOption
    (group : ProxyAdapter Proxy Regexp URLTestOption) s' :
  structure_Decode config defaultGroupOption = inr groupOption ->
  ParseProxyGroup config proxyMap s = (inr group, s') ->
  length (adapter_providers group)
  = (match Proxies groupOption with [] => 0 | _ :: _ => 1 end
     + length (Use groupOption))%nat /\
  adapter_providers group <> [].
Proof.
  intros Hdec Hrun.
  destruct (ParseProxyGroup_success _ _ _ _ _ Hrun)
    as (o & f & providers & s1 & merged & Ho & _ & _ & _ & Hsome & Hin &
        Hmerge & Hdisp).
  assert (o = groupOption) as -> by congruence.
  rewrite (dispatch_providers _ _ _ _ Hdisp).
  apply mergeProviders_ok in Hmerge.
  destruct Hmerge as (derived & -> & Hall & _).
  apply Forall2_length in Hall.
  assert (Hlen : length (merge_order groupOption providers derived)
                 = (match Proxies groupOption with [] => 0 | _ :: _ => 1 end
                    + length (Use groupOption))%nat).
  { unfold merge_order. rewrite Hall.
    apply inlineProviders_cases in Hin.
    destruct Hin as [(-> & [= ->] & _)|[(_ & _ & e & [=] & _)|
      (Hne & ps & hc & _ & _ & _ & _ & [= ->] & _)]].
    - destruct (String.eqb _ _); rewrite length_app; simpl; lia.
    - destruct (Proxies groupOption); [contradiction|].
      destruct (String.eqb _ _); rewrite length_app; simpl; lia. }
  split; [exact Hlen|].
  intros Hnil. rewrite Hnil in Hlen. simpl in Hlen.
  destruct (Proxies groupOption), (Use groupOption), Hsome;
    simpl in Hlen; try contradiction; discriminate.
Qed.

Lemma newHealthCheck_available (ps : list Proxy) groupOption
    (hc : HealthCheck Proxy) :
  newHealthCheck ps groupOption = inr hc ->
  Type_ groupOption = "select" \/ Type_ groupOption = "relay" \/
  (URL groupOption <> "" /\ Interval groupOption <> 0%Z).
Proof.
  unfold newHealthCheck.
  destruct (String.eqb_spec (Type_ groupOption) "select"); [auto|].
  destruct (String.eqb_spec (Type_ groupOption) "relay"); [auto|].
  simpl.
  destruct (String.eqb_spec (URL groupOption) ""); [discriminate|].
  destruct (Z.eqb_spec (Interval groupOption) 0); [discriminate|]. auto.
Qed.

Lemma newHealthCheck_built (ps : list Proxy) groupOption :
  Type_ groupOption = "select" \/ Type_ groupOption = "relay" \/
  (URL groupOption <> "" /\ Interval groupOption <> 0%Z) ->
  exists hc, newHealthCheck ps groupOption = inr hc.
Proof.
  unfold newHealthCheck. intros [->|[->|[Hu Hi]]]; [eauto|eauto|].
  destruct (_ || _); [eauto|].
  apply String.eqb_neq in Hu. apply Z.eqb_neq in Hi. rewrite Hu, Hi.
  simpl. eauto.
Qed.

Lemma compileFilter_compiled groupOption (filterRegx : option Regexp) :
  compileFilter groupOption = inr filterRegx ->
  Filter groupOption = "" \/
  exists regx, regexp_Compile (Filter groupOption) = inr regx.
Proof.
  unfold compileFilter.
  destruct (String.eqb_spec (Filter groupOption) ""); [auto|].
  destruct (regexp_Compile (Filter groupOption)); [discriminate|eauto].
Qed.

(** X9.  What a successful resolution shows about its input: [name] and
    [type] are not empty and the kind is one of the five; the filter is
    empty or compiles; the group lists inline proxies or [use] names;
    every inline proxy is in the endpoint registry; every [use] name was
    bound to a dynamic pool before the call; if there are inline proxies
    the group's name was free in the registry and so is not one of the
    [use] names; and the kind is "select" or "relay" or both [url] and
    [interval] are set. *)
Theorem ParseProxyGroup_success_requires config proxyMap s groupOption
    (group : ProxyAdapter Proxy Regexp URLTestOption) s' :
  structure_Decode config defaultGroupOption = inr groupOption ->
  ParseProxyGroup config proxyMap s = (inr group, s') ->
  Name groupOption <> "" /\
  known_kind (Type_ groupOption) /\
  (Filter groupOption = "" \/
   exists regx, regexp_Compile (Filter groupOption) = inr regx) /\
  (Proxies groupOption <> [] \/ Use groupOption <> []) /\
  Forall (fun name => is_Some (proxyMap !! name)) (Proxies groupOption) /\
  Forall (is_pool s) (Use groupOption) /\
  (Proxies groupOption <> [] ->
   providersMap s !! Name groupOption = None /\
   Name groupOption ∉ Use groupOption) /\
  (Type_ groupOption = "select" \/ Type_ groupOption = "relay" \/
   (URL groupOption <> "" /\ Interval groupOption <> 0%Z)).
Proof.
  intros Hdec Hrun.
  destruct (ParseProxyGroup_success _ _ _ _ _ Hrun)
    as (o & f & providers & s1 & merged & Ho & Ht & Hn & Hf & Hsome & Hin &
        Hmerge & Hdisp).
  assert (o = groupOption) as -> by congruence.
  apply mergeProviders_ok in Hmerge.
  destruct Hmerge as (derived & _ & Hall & _).
  assert (Hkind : known_kind (Type_ groupOption)).
  { apply dispatch_known in Hdisp. unfold known_kind.
    destruct Hdisp as [[-> _]|[[-> _]|[[-> _]|[[-> _]|[-> _]]]]]; auto 10. }
  split; [exact Hn|]. split; [exact Hkind|].
  split; [eapply compileFilter_compiled; exact Hf|].
  split; [exact Hsome|].
  apply inlineProviders_cases in Hin.
  destruct Hin as [(Hnil & _ & ->)|[(_ & _ & e & [=] & _)|
    (Hne & ps & hc & Hps & Hfree & Hhc & _ & _ & ->)]].
  - rewrite Hnil. split; [constructor|].
    split; [eapply derived_from_pool; exact Hall|].
    split; [intros Hne; contradiction Hne; reflexivity|].
    destruct Hsome as [Hp|Hu]; [congruence|].
    destruct Hall as [|n p ns ps' (pp & hc & _ & Hhc & _) _];
      [contradiction|].
    eapply newHealthCheck_available; exact Hhc.
  - assert (Hpools : Forall (is_pool s) (Use groupOption)).
    { eapply derived_from_pool, Forall2_impl; [exact Hall|].
      intros n p. apply registered_derived. }
    split.
    { destruct (getProxies_loop_ok _ _ _ _ Hps) as (qs & _ & Hqs).
      clear -Hqs. induction Hqs; constructor; eauto. }
    split; [exact Hpools|].
    split; [|eapply newHealthCheck_available; exact Hhc].
    intros _. split; [exact Hfree|].
    intros Hself. rewrite Forall_forall in Hpools.
    destruct (Hpools _ Hself) as [pp Hpp]. congruence.
Qed.

(** X10.  A configuration resolves, whatever its kind among the five,
    when: [name] is not empty; the filter is empty or compiles; it lists
    inline proxies or [use] names; the inline proxies are all in the
    endpoint registry; if there are any, the group's name is free in the
    registry and the synthetic-provider constructor accepts them; the
    [use] names are all bound to dynamic pools; the kind is "select" or
    "relay" or both [url] and [interval] are set; and, for
    "load-balance", the constructor accepts the strategy. *)
Theorem ParseProxyGroup_succeeds config proxyMap s groupOption :
  structure_Decode config defaultGroupOption = inr groupOption ->
  Name groupOption <> "" ->
  known_kind (Type_ groupOption) ->
  (Filter groupOption = "" \/
   exists regx, regexp_Compile (Filter groupOption) = inr regx) ->
  Proxies groupOption <> [] \/ Use groupOption <> [] ->
  Forall (fun name => is_Some (proxyMap !! name)) (Proxies groupOption) ->
  (Proxies groupOption <> [] ->
   providersMap s !! Name groupOption = None /\
   forall ps hc,
     getProxies proxyMap (Proxies groupOption) = inr ps ->
     newHealthCheck ps groupOption = inr hc ->
     NewCompatibleProvider_err (Name groupOption) ps hc = None) ->
  Forall (is_pool s) (Use groupOption) ->
  (Type_ groupOption = "select" \/ Type_ groupOption = "relay" \/
   (URL groupOption <> "" /\ Interval groupOption <> 0%Z)) ->
  (Type_ groupOption = "load-balance" ->
   forall merged,
     NewLoadBalance_err groupOption merged (parseStrategy config) = None) ->
  exists (group : ProxyAdapter Proxy Regexp URLTestOption) s',
    ParseProxyGroup config proxyMap s = (inr group, s').
Proof.
  intros Hdec Hn Hkind Hfilter Hsome Hfound Hinline Hpools Hhc Hlb.
  assert (Ht : Type_ groupOption <> "").
  { unfold known_kind in Hkind.
    destruct Hkind as [->|[->|[->|[->| ->]]]]; discriminate. }
  destruct (compileFilter_ok _ Hfilter) as [f Hf].
  rewrite (ParseProxyGroup_resolve config proxyMap s groupOption f)
    by done.
  unfold resolve.
  assert (Hin : exists providers s1,
            inlineProviders groupOption proxyMap s = (inr providers, s1) /\
            Forall (is_pool s1) (Use groupOption)).
  { destruct (Proxies groupOption) as [|x l] eqn:Hp.
    - exists [], s. split; [apply inlineProviders_skip; exact Hp|].
      exact Hpools.
    - destruct Hinline as [Hfree Hnew]; [discriminate|].
      destruct (getProxies_loop_found _ _ Hfound []) as [ps Hps].
      fold (getProxies proxyMap (x :: l)) in Hps.
      destruct (newHealthCheck_built ps groupOption Hhc) as [hc Hbuilt].
      eexists _, _. split.
      + apply (inlineProviders_run groupOption proxyMap s ps hc);
          rewrite ?Hp; auto.
      + eapply Forall_impl; [exact Hpools|]. intros name.
        apply registered_pool. exact Hfree. }
  destruct Hin as (providers & s1 & -> & Hpools1).
  destruct (newHealthCheck_built [] groupOption Hhc) as [hc0 Hhc0].
  assert (Hmerge : exists merged s2,
            mergeProviders groupOption f providers s1 = (inr merged, s2)).
  { unfold mergeProviders, getProviders. destruct (negb _); [|eauto].
    destruct (getProviders_loop_all groupOption f hc0 (Use groupOption)
                Hhc0 [] s1 Hpools1) as (l & s2 & ->). eauto. }
  destruct Hmerge as (merged & s2 & ->).
  unfold dispatch, NewLoadBalance. unfold known_kind in Hkind.
  destruct Hkind as [Hk|[Hk|[Hk|[Hk|Hk]]]];
    try (rewrite Hk; simpl; eauto; fail).
  rewrite (Hlb Hk merged). rewrite Hk. simpl. eauto.
Qed.

(** ** Calls in sequence, and a group naming itself *)

(* the registry after a successful call for a group with inline proxies *)
Lemma ParseProxyGroup_bound config proxyMap s groupOption
    (group : ProxyAdapter Proxy Regexp URLTestOption) s' :
  structure_Decode config defaultGroupOption = inr groupOption ->
  ParseProxyGroup config proxyMap s = (inr group, s') ->
  Proxies groupOption <> [] ->
  Name groupOption <> "" /\
  is_Some (providersMap s' !! Name groupOption).
Proof.
  intros Hdec Hrun Hne.
  destruct (ParseProxyGroup_success _ _ _ _ _ Hrun)
    as (o & f & providers & s1 & merged & Ho & _ & Hn & _ & _ & Hin &
        Hmerge & _).
  assert (o = groupOption) as -> by congruence.
  split; [exact Hn|].
  pose proof (mergeProviders_registry groupOption f providers s1) as Hreg.
  rewrite Hmerge in Hreg. simpl in Hreg. rewrite Hreg.
  apply inlineProviders_cases in Hin.
  destruct Hin as [(Hnil & _)|[(_ & _ & e & [=] & _)|
    (_ & ps & hc & _ & _ & _ & _ & _ & ->)]]; [contradiction|].
  simpl. rewrite lookup_insert_eq. eauto.
Qed.

(** X11.  Once a group with inline proxies has been resolved, a later
    call for a group of the same name that reaches the duplicate-name
    guard -- its [type] is not empty, its filter is empty or compiles,
    and its inline proxies, of which there is at least one, all resolve
    -- fails with the duplicate-provider error and leaves the store as
    the first call left it.  Resolving the same record twice is the
    special case. *)
Theorem ParseProxyGroup_second_fails config proxyMap s groupOption
    (group : ProxyAdapter Proxy Regexp URLTestOption) s1
    config2 (proxyMap2 : gmap string Proxy) groupOption2 :
  structure_Decode config defaultGroupOption = inr groupOption ->
  ParseProxyGroup config proxyMap s = (inr group, s1) ->
  Proxies groupOption <> [] ->
  structure_Decode config2 defaultGroupOption = inr groupOption2 ->
  Name groupOption2 = Name groupOption ->
  Type_ groupOption2 <> "" ->
  (Filter groupOption2 = "" \/
   exists regx, regexp_Compile (Filter groupOption2) = inr regx) ->
  Proxies groupOption2 <> [] ->
  Forall (fun name => is_Some (proxyMap2 !! name)) (Proxies groupOption2) ->
  ParseProxyGroup config2 proxyMap2 s1
  = (inl (wrap_with_name (Name groupOption) errDuplicateProvider), s1).
Proof.
  intros Hdec Hrun Hne Hdec2 Hsame Ht2 Hfilter2 Hne2 Hfound2.
  destruct (ParseProxyGroup_bound _ _ _ _ _ _ Hdec Hrun Hne)
    as [Hn [old Hold]].
  destruct (compileFilter_ok _ Hfilter2) as [f2 Hf2].
  rewrite (ParseProxyGroup_resolve config2 proxyMap2 s1 groupOption2 f2)
    by (first [done | congruence | auto]).
  unfold resolve, inlineProviders.
  destruct (getProxies_loop_found _ _ Hfound2 []) as [ps Hps].
  fold (getProxies proxyMap2 (Proxies groupOption2)) in Hps.
  apply length_eqb_cons in Hne2. rewrite Hne2. simpl.
  rewrite Hps, Hsame, Hold. reflexivity.
Qed.

(** X12.  A group with inline proxies cannot refer to itself.  When its
    inline step completes and its own name stands in [use] after names
    that are all bound to dynamic pools, the call fails with the
    incompatible-reference error on the group's own name -- the name has
    just been bound to the group's synthetic provider -- and that
    binding stays in the registry. *)
Theorem ParseProxyGroup_self_reference config proxyMap s groupOption
    (ps : list Proxy) (hc : HealthCheck Proxy)
    (before after : list string) :
  structure_Decode config defaultGroupOption = inr groupOption ->
  Type_ groupOption <> "" -> Name groupOption <> "" ->
  (Filter groupOption = "" \/
   exists regx, regexp_Compile (Filter groupOption) = inr regx) ->
  Proxies groupOption <> [] ->
  getProxies proxyMap (Proxies groupOption) = inr ps ->
  providersMap s !! Name groupOption = None ->
  newHealthCheck ps groupOption = inr hc ->
  NewCompatibleProvider_err (Name groupOption) ps hc = None ->
  Use groupOption = before ++ Name groupOption :: after ->
  Forall (is_pool s) before ->
  exists s',
    ParseProxyGroup config proxyMap s
    = (inl (wrap_with_name (Name groupOption)
              (cant_contain (Name groupOption))), s') /\
    providersMap s'
    = <[Name groupOption := CompatibleProvider (Name groupOption) ps hc]>
        (providersMap s).
Proof.
  intros Hdec Ht Hn Hfilter Hne Hps Hfree Hhc Hnew Huse Hpools.
  destruct (compileFilter_ok _ Hfilter) as [f Hf].
  rewrite (ParseProxyGroup_resolve config proxyMap s groupOption f)
    by auto.
  unfold resolve.
  rewrite (inlineProviders_run groupOption proxyMap s ps hc) by done.
  destruct (mergeProviders_stops groupOption f [synthetic groupOption ps hc]
              (registered groupOption ps hc s) before (Name groupOption)
              after Huse)
    as (s0 & Hreg & _ & Hstop).
  { eapply Forall_impl; [exact Hpools|]. intros name.
    apply registered_pool. exact Hfree. }
  { intros _. eexists. eapply newHealthCheck_any_proxies. exact Hhc. }
  assert (Hself : providersMap s0 !! Name groupOption
                  = Some (synthetic groupOption ps hc)).
  { rewrite Hreg. simpl. apply lookup_insert_eq. }
  exists s0. split; [|exact Hreg].
  erewrite Hstop; [reflexivity|]. simpl. rewrite Hself. reflexivity.
Qed.

(** ** The endpoint registry is only read at the listed names *)

Lemma getProxies_loop_agree (m m' : gmap string Proxy) (names : list string) :
  (forall name, name ∈ names -> m !! name = m' !! name) ->
  forall acc, getProxies_loop m names acc = getProxies_loop m' names acc.
Proof.
  induction names as [|name rest IH]; intros Hagree acc; simpl;
    [reflexivity|].
  rewrite <- (Hagree name) by left.
  destruct (m !! name); [|reflexivity].
  apply IH. intros n Hn. apply Hagree. right. exact Hn.
Qed.

(** X13.  The outcome of a call, result and store, depends on the
    endpoint registry only through the entries of the names listed in
    [proxies]: two endpoint registries that agree on those names give
    the same outcome.  In particular a resolution that succeeds still
    succeeds, with the same adapter, after endpoints have been added to
    the registry. *)
Theorem ParseProxyGroup_endpoint_frame config (m m' : gmap string Proxy) s
    groupOption :
  structure_Decode config defaultGroupOption = inr groupOption ->
  ((forall name, name ∈ Proxies groupOption -> m !! name = m' !! name) ->
   ParseProxyGroup config m s = ParseProxyGroup config m' s) /\
  (forall (group : ProxyAdapter Proxy Regexp URLTestOption) s',
     m ⊆ m' ->
     ParseProxyGroup config m s = (inr group, s') ->
     ParseProxyGroup config m' s = (inr group, s')).
Proof.
  intros Hdec.
  assert (Hframe :
    (forall name, name ∈ Proxies groupOption -> m !! name = m' !! name) ->
    ParseProxyGroup config m s = ParseProxyGroup config m' s).
  { intros Hagree. unfold ParseProxyGroup. rewrite Hdec.
    unfold inlineProviders, getProxies.
    rewrite (getProxies_loop_agree m m' _ Hagree []). reflexivity. }
  split; [exact Hframe|].
  intros group s' Hsub Hrun. rewrite <- Hframe; [exact Hrun|].
  destruct (ParseProxyGroup_success _ _ _ _ _ Hrun)
    as (o & f & providers & s1 & merged & Ho & _ & _ & _ & _ & Hin & _).
  assert (o = groupOption) as -> by congruence.
  apply inlineProviders_cases in Hin.
  destruct Hin as [(Hnil & _)|[(_ & _ & e & [=] & _)|
    (_ & ps & hc & Hps & _)]].
  - rewrite Hnil. intros name Hname. inversion Hname.
  - destruct (getProxies_loop_ok _ _ _ _ Hps) as (qs & _ & Hqs).
    intros name Hname.
    assert (Hbound : is_Some (m !! name)).
    { clear -Hqs Hname. induction Hqs as [|n q ns qs' Hn _ IH];
        [inversion Hname|].
      apply elem_of_cons in Hname. destruct Hname as [->|Hname]; eauto. }
    destruct Hbound as [p Hp]. rewrite Hp. symmetry.
    eapply lookup_weaken; [exact Hp|exact Hsub].
Qed.

(** ** The names of the providers *)

Lemma string_length_app (a b : string) :
  String.length (a +:+ b) = (String.length a + String.length b)%nat.
Proof.
  induction a as [|c a IH]; [reflexivity|].
  change (S (String.length (a +:+ b))
          = S (String.length a + String.length b)).
  rewrite IH. reflexivity.
Qed.

Lemma string_app_inj_r (a b c : string) : a +:+ c = b +:+ c -> a = b.
Proof.
  revert b. induction a as [|x a IH]; intros [|y b] Heq.
  - reflexivity.
  - apply (f_equal String.length) in Heq.
    change (String.length c = S (String.length (b +:+ c))) in Heq.
    rewrite string_length_app in Heq. lia.
  - apply (f_equal String.length) in Heq.
    change (S (String.length (a +:+ c)) = String.length c) in Heq.
    rewrite string_length_app in Heq. lia.
  - change (String x (a +:+ c) = String y (b +:+ c)) in Heq.
    injection Heq as -> Heq. f_equal. apply IH. exact Heq.
Qed.

Lemma derived_names groupOption (filterRegx : option Regexp) s
    (names : list string) (derived : list (ProxyProvider Proxy Regexp)) :
  Forall2 (derived_from groupOption filterRegx s) names derived ->
  name_of <$> derived
  = Some <$> ((fun name => name +:+ "-in-" +:+ Name groupOption) <$> names).
Proof.
  induction 1 as [|n p ns ps' (pp & hc & _ & _ & ->) _ IH]; [reflexivity|].
  rewrite !fmap_cons, IH. reflexivity.
Qed.

(** X14.  The providers of a resolved group are named: the synthetic
    one after the group, the one derived from the [use] name n
    "n-in-<group>", in the order of the adapter.  The synthetic
    provider's name differs from every derived name, and if no name
    occurs twice in [use] then no two providers of the adapter have the
    same name. *)
Theorem ParseProxyGroup_provider_names config proxyMap s groupOption
    (group : ProxyAdapter Proxy Regexp URLTestOption) s' :
  structure_Decode config defaultGroupOption = inr groupOption ->
  ParseProxyGroup config proxyMap s = (inr group, s') ->
  exists names,
    name_of <$> adapter_providers group = Some <$> names /\
    names
    = (if String.eqb (Type_ groupOption) "fallback"
       then ((fun name => name +:+ "-in-" +:+ Name groupOption)
               <$> Use groupOption)
            ++ match Proxies groupOption with
               | [] => []
               | _ :: _ => [Name groupOption]
               end
       else match Proxies groupOption with
            | [] => []
            | _ :: _ => [Name groupOption]
            end
            ++ ((fun name => name +:+ "-in-" +:+ Name groupOption)
                  <$> Use groupOption)) /\
    (NoDup (Use groupOption) -> NoDup names).
Proof.
  intros Hdec Hrun.
  destruct (ParseProxyGroup_success _ _ _ _ _ Hrun)
    as (o & f & providers & s1 & merged & Ho & _ & _ & _ & _ & Hin &
        Hmerge & Hdisp).
  assert (o = groupOption) as -> by congruence.
  rewrite (dispatch_providers _ _ _ _ Hdisp).
  apply mergeProviders_ok in Hmerge.
  destruct Hmerge as (derived & -> & Hall & _).
  apply derived_names in Hall.
  eexists. split; [|split; [reflexivity|]].
  - unfold merge_order.
    apply inlineProviders_cases in Hin.
    destruct Hin as [(-> & [= ->] & _)|[(_ & _ & e & [=] & _)|
      (Hne & ps & hc & _ & _ & _ & _ & [= ->] & _)]].
    + destruct (String.eqb _ _); rewrite !fmap_app, Hall; reflexivity.
    + destruct (Proxies groupOption); [contradiction|].
      destruct (String.eqb _ _); rewrite !fmap_app, Hall; reflexivity.
  - intros Hnodup.
    assert (Hder : NoDup ((fun name => name +:+ "-in-" +:+ Name groupOption)
                            <$> Use groupOption)).
    { apply NoDup_fmap_2; [|exact Hnodup].
      intros a b Heq. eapply string_app_inj_r. exact Heq. }
    assert (Hfresh : Name groupOption
                     ∉ (fun name => name +:+ "-in-" +:+ Name groupOption)
                         <$> Use groupOption).
    { intros Hself. apply list_elem_of_fmap in Hself.
      destruct Hself as (n & Heq & _).
      apply (f_equal String.length) in Heq.
      rewrite !string_length_app in Heq. simpl in Heq. lia. }
    destruct (Proxies groupOption), (String.eqb _ _);
      rewrite ?app_nil_r; simpl; try exact Hder.
    + apply NoDup_app. split; [exact Hder|]. split.
      * intros x Hx Hin'. apply list_elem_of_singleton in Hin'. subst x.
        contradiction.
      * apply NoDup_singleton.
    + apply NoDup_cons. split; [exact Hfresh|exact Hder].
Qed.

(** ** The policies of the providers *)

(** X15.  Every provider of a resolved group carries a health-check
    policy, and it is the policy [newHealthCheck] builds from the
    group's options for the endpoints the policy watches: a derived
    provider's policy starts without endpoints, the synthetic
    provider's policy watches the handles its provider holds. *)
Theorem ParseProxyGroup_policies config proxyMap s groupOption
    (group : ProxyAdapter Proxy Regexp URLTestOption) s' :
  structure_Decode config defaultGroupOption = inr groupOption ->
  ParseProxyGroup config proxyMap s = (inr group, s') ->
  Forall (fun p =>
            exists hc,
              provider_healthCheck p = Some hc /\
              newHealthCheck (hc_proxies hc) groupOption = inr hc /\
              match p with
              | ProxySetProvider _ => False
              | CompatibleProvider _ proxies _ => hc_proxies hc = proxies
              | ProxyFilterProvider _ _ _ _ => hc_proxies hc = []
              end)
    (adapter_providers group).
Proof.
  intros Hdec Hrun.
  destruct (ParseProxyGroup_success _ _ _ _ _ Hrun)
    as (o & f & providers & s1 & merged & Ho & _ & _ & _ & _ & Hin &
        Hmerge & Hdisp).
  assert (o = groupOption) as -> by congruence.
  rewrite (dispatch_providers _ _ _ _ Hdisp).
  apply mergeProviders_ok in Hmerge.
  destruct Hmerge as (derived & -> & Hall & _).
  assert (Hkeeps : forall (ps : list Proxy) hc,
            newHealthCheck ps groupOption = inr hc ->
            hc_proxies hc = ps).
  { intros ps hc. unfold newHealthCheck.
    repeat case_match; intros [= <-]; reflexivity. }
  assert (Hder : Forall (fun p =>
            exists hc,
              provider_healthCheck p = Some hc /\
              newHealthCheck (hc_proxies hc) groupOption = inr hc /\
              match p with
              | ProxySetProvider _ => False
              | CompatibleProvider _ proxies _ => hc_proxies hc = proxies
              | ProxyFilterProvider _ _ _ _ => hc_proxies hc = []
              end) derived).
  { clear -Hall Hkeeps.
    induction Hall as [|n p ns ps' (pp & hc & _ & Hhc & ->) _ IH];
      constructor; [|exact IH].
    exists hc. simpl. rewrite (Hkeeps _ _ Hhc). auto. }
  assert (Hinl : Forall (fun p =>
            exists hc,
              provider_healthCheck p = Some hc /\
              newHealthCheck (hc_proxies hc) groupOption = inr hc /\
              match p with
              | ProxySetProvider _ => False
              | CompatibleProvider _ proxies _ => hc_proxies hc = proxies
              | ProxyFilterProvider _ _ _ _ => hc_proxies hc = []
              end) providers).
  { apply inlineProviders_cases in Hin.
    destruct Hin as [(_ & [= ->] & _)|[(_ & _ & e & [=] & _)|
      (_ & ps & hc & _ & _ & Hhc & _ & [= ->] & _)]]; [constructor|].
    constructor; [|constructor].
    exists hc. simpl. rewrite (Hkeeps _ _ Hhc). auto. }
  unfold merge_order. destruct (String.eqb _ _); apply Forall_app; auto.
Qed.

(** ** The provider registry is only read at the names of the group *)

Lemma getProviders_loop_local groupOption (filterRegx : option Regexp)
    (use : list string) :
  forall acc s t,
    (forall name, name ∈ use ->
                  providersMap s !! name = providersMap t !! name) ->
    (getProviders_loop groupOption filterRegx use acc s).1
    = (getProviders_loop groupOption filterRegx use acc t).1.
Proof.
  induction use as [|name rest IH]; intros acc s t Hagree; simpl;
    [reflexivity|].
  rewrite <- (Hagree name) by left.
  destruct (providersMap s !! name) as [[pp| |]|]; try reflexivity.
  destruct (newHealthCheck [] groupOption); [reflexivity|].
  apply IH. intros n Hn. simpl. apply Hagree. right. exact Hn.
Qed.

Lemma mergeProviders_local groupOption (filterRegx : option Regexp)
    providers s t :
  (forall name, name ∈ Use groupOption ->
                providersMap s !! name = providersMap t !! name) ->
  (mergeProviders groupOption filterRegx providers s).1
  = (mergeProviders groupOption filterRegx providers t).1.
Proof.
  intros Hagree. unfold mergeProviders, getProviders.
  destruct (negb _); [|reflexivity].
  pose proof (getProviders_loop_local groupOption filterRegx
                (Use groupOption) [] s t Hagree) as Hloop.
  destruct (getProviders_loop _ _ _ _ s) as [[e1|l1] s1],
           (getProviders_loop _ _ _ _ t) as [[e2|l2] t1];
    simpl in Hloop; try discriminate; injection Hloop as <-; reflexivity.
Qed.

(** X16.  The result of a call -- the adapter or the error -- depends on
    the provider store only through whether the group's name is bound
    in the registry and through the registry's entries for the [use]
    names: two stores that agree there give the same result.  What the
    pools have collected as dependents is never read. *)
Theorem ParseProxyGroup_registry_locality config proxyMap s t groupOption :
  structure_Decode config defaultGroupOption = inr groupOption ->
  (providersMap s !! Name groupOption = None <->
   providersMap t !! Name groupOption = None) ->
  (forall name, name ∈ Use groupOption ->
                providersMap s !! name = providersMap t !! name) ->
  (ParseProxyGroup config proxyMap s).1
  = (ParseProxyGroup config proxyMap t).1.
Proof.
  intros Hdec Hbound Hagree. unfold ParseProxyGroup. rewrite Hdec.
  destruct (_ || _); [reflexivity|].
  destruct (compileFilter groupOption) as [e|f]; [reflexivity|].
  destruct (_ && _); [reflexivity|].
  assert (Hin :
    (exists e, inlineProviders groupOption proxyMap s = (inl e, s) /\
               inlineProviders groupOption proxyMap t = (inl e, t)) \/
    (exists providers s1 t1,
       inlineProviders groupOption proxyMap s = (inr providers, s1) /\
       inlineProviders groupOption proxyMap t = (inr providers, t1) /\
       forall name, name ∈ Use groupOption ->
                    providersMap s1 !! name = providersMap t1 !! name)).
  { unfold inlineProviders. destruct (negb _); [|right; eauto 10].
    destruct (getProxies proxyMap (Proxies groupOption)) as [e|ps];
      [left; eauto|].
    destruct (providersMap s !! Name groupOption) as [ps'|] eqn:Hs,
             (providersMap t !! Name groupOption) as [pt|] eqn:Ht.
    - left. eauto.
    - destruct Hbound as [_ Hb]. discriminate (Hb eq_refl).
    - destruct Hbound as [Hb _]. discriminate (Hb eq_refl).
    - destruct (newHealthCheck ps groupOption) as [e|hc]; [left; eauto|].
      destruct (NewCompatibleProvider (Name groupOption) ps hc) as [e|pd];
        [left; eauto|].
      right. eexists _, _, _. do 2 (split; [reflexivity|]).
      intros name Hname. simpl. rewrite !lookup_insert.
      destruct (decide (Name groupOption = name)); [reflexivity|].
      apply Hagree. exact Hname. }
  destruct Hin as [(e & -> & ->)|(providers & s1 & t1 & -> & -> & Hagree1)];
    [reflexivity|].
  pose proof (mergeProviders_local groupOption f providers s1 t1 Hagree1)
    as Hmerge.
  destruct (mergeProviders groupOption f providers s1) as [[e1|m1] s2],
           (mergeProviders groupOption f providers t1) as [[e2|m2] t2];
    simpl in Hmerge; try discriminate; injection Hmerge as <-; reflexivity.
Qed.

End Coverage.

(** * The further properties on concrete groups *)

Lemma ParseProxyGroup_invalid_filter_witness :
  ParseProxyGroup
    (<["filter" := VString "("]> (groupConfig "g" "select" ["A"] ["P"] "" 0))
    endpoints registry
  = (inl (wrap_filter "g"
            (errors_New "error parsing regexp: missing closing ): `(`")),
     registry).
Proof.
  refine (proj1 (ParseProxyGroup_invalid_filter
                   (<["filter" := VString "("]>
                      (groupConfig "g" "select" ["A"] ["P"] "" 0))
                   endpoints registry
                   (mkGroupCommonOption "g" "select" ["A"] ["P"] "" 0
                      true false false "(")
                   (errors_New "error parsing regexp: missing closing ): `(`")
                   _ _ _ _ _));
    [run | discriminate | discriminate | discriminate | run].
Defined.

Lemma newHealthCheck_policy_witness :
  hc_proxies (NewHealthCheck [1%nat; 2%nat] "http://x" (2 ^ 64 - 1) false)
  = [1%nat; 2%nat] /\
  hc_interval (NewHealthCheck [1%nat; 2%nat] "http://x" (2 ^ 64 - 1) false)
  = (-1 + 2 ^ 64)%Z.
Proof.
  destruct (newHealthCheck_policy [1%nat; 2%nat]
              (mkGroupCommonOption "g" "url-test" ["A"; "B"] [] "http://x"
                 (-1) false false false "")
              (NewHealthCheck [1%nat; 2%nat] "http://x" (2 ^ 64 - 1) false))
    as (Hkeeps & _ & [([Hk|Hk] & _)|(_ & _ & _ & _ & _ & _ & Hwraps)]).
  - run.
  - discriminate Hk.
  - discriminate Hk.
  - split; [exact Hkeeps|]. apply Hwraps; simpl; lia.
Defined.

Lemma ParseProxyGroup_dependents_witness :
  dependents (ParseProxyGroup fallback_config endpoints registry).2 7%positive
  = dependents registry 7%positive
    ++ List.filter (observes 7%positive) (adapter_providers fallback_adapter).
Proof.
  refine (ParseProxyGroup_dependents fallback_config endpoints registry
            fallback_adapter
            (ParseProxyGroup fallback_config endpoints registry).2
            _ 7%positive).
  run.
Defined.



Lemma ParseProxyGroup_unknown_kind_witness :
  (exists err s',
     ParseProxyGroup (groupConfig "g" "bogus" ["A"] [] "http://x" 30)
       endpoints registry = (inl err, s')) /\
  ParseProxyGroup (groupConfig "g" "bogus" ["A"] [] "http://x" 30)
    endpoints registry
  = (inl (unsupported_type "g" "bogus"),
     (inlineProviders (groupOptionOf "g" "bogus" ["A"] [] "http://x" 30)
        endpoints registry).2) /\
  Error (unsupported_type "g" "bogus") = "g unsupported type: bogus".
Proof.
  destruct (ParseProxyGroup_unknown_kind
              (groupConfig "g" "bogus" ["A"] [] "http://x" 30)
              endpoints registry
              (groupOptionOf "g" "bogus" ["A"] [] "http://x" 30))
    as [Hfails Hlast].
  - run.
  - unfold known_kind. simpl. intros [H|[H|[H|[H|H]]]]; discriminate H.
  - split; [exact Hfails|].
    destruct (Hlast None
                [CompatibleProvider "g" [1%nat]
                   (NewHealthCheck [1%nat] "http://x" 30 true)]
                (inlineProviders
                   (groupOptionOf "g" "bogus" ["A"] [] "http://x" 30)
                   endpoints registry).2
                [CompatibleProvider "g" [1%nat]
                   (NewHealthCheck [1%nat] "http://x" 30 true)]
                (inlineProviders
                   (groupOptionOf "g" "bogus" ["A"] [] "http://x" 30)
                   endpoints registry).2)
      as (Hrun & Htext & _).
    + discriminate.
    + discriminate.
    + left. discriminate.
    + reflexivity.
    + run.
    + run.
    + split; [exact Hrun|exact Htext].
Defined.

Lemma ParseProxyGroup_provider_count_witness :
  length (adapter_providers fallback_adapter)
  = (1 + length ["P"; "P"])%nat /\
  adapter_providers fallback_adapter <> [].
Proof.
  refine (ParseProxyGroup_provider_count fallback_config endpoints registry
            fallback_option fallback_adapter
            (ParseProxyGroup fallback_config endpoints registry).2 _ _);
    run.
Defined.

Lemma ParseProxyGroup_success_requires_witness :
  Name fallback_option <> "" /\
  known_kind (Type_ fallback_option) /\
  (Filter fallback_option = "" \/
   exists regx, Compile (Filter fallback_option) = inr regx) /\
  (Proxies fallback_option <> [] \/ Use fallback_option <> []) /\
  Forall (fun name => is_Some (endpoints !! name)) (Proxies fallback_option) /\
  Forall (is_pool registry) (Use fallback_option) /\
  (Proxies fallback_option <> [] ->
   providersMap registry !! Name fallback_option = None /\
   Name fallback_option ∉ Use fallback_option) /\
  (Type_ fallback_option = "select" \/ Type_ fallback_option = "relay" \/
   (URL fallback_option <> "" /\ Interval fallback_option <> 0%Z)).
Proof.
  refine (ParseProxyGroup_success_requires fallback_config endpoints registry
            fallback_option fallback_adapter
            (ParseProxyGroup fallback_config endpoints registry).2 _ _);
    run.
Defined.

Lemma ParseProxyGroup_succeeds_witness :
  exists group s',
    ParseProxyGroup
      (groupConfig "g" "load-balance" ["A"; "B"] ["P"] "http://x" 30)
      endpoints registry
    = (inr group, s').
Proof.
  refine (ParseProxyGroup_succeeds
            (groupConfig "g" "load-balance" ["A"; "B"] ["P"] "http://x" 30)
            endpoints registry
            (groupOptionOf "g" "load-balance" ["A"; "B"] ["P"] "http://x" 30)
            _ _ _ _ _ _ _ _ _ _).
  - run.
  - discriminate.
  - unfold known_kind. simpl. auto.
  - left. reflexivity.
  - left. discriminate.
  - found.
  - intros _. split; [run|reflexivity].
  - found.
  - right. right. split; discriminate.
  - reflexivity.
Defined.

Lemma ParseProxyGroup_second_fails_witness :
  ParseProxyGroup fallback_config endpoints
    (ParseProxyGroup fallback_config endpoints registry).2
  = (inl (wrap_with_name "g" errDuplicateProvider),
     (ParseProxyGroup fallback_config endpoints registry).2).
Proof.
  refine (ParseProxyGroup_second_fails fallback_config endpoints registry
            fallback_option fallback_adapter
            (ParseProxyGroup fallback_config endpoints registry).2
            fallback_config endpoints fallback_option _ _ _ _ _ _ _ _ _).
  - run.
  - run.
  - discriminate.
  - run.
  - reflexivity.
  - discriminate.
  - left. reflexivity.
  - discriminate.
  - found.
Defined.

Lemma ParseProxyGroup_self_reference_witness :
  exists s',
    ParseProxyGroup (groupConfig "g" "select" ["A"] ["P"; "g"] "" 0)
      endpoints registry
    = (inl (wrap_with_name "g" (cant_contain "g")), s') /\
    providersMap s'
    = <["g" := CompatibleProvider "g" [1%nat]
                 (NewHealthCheck [1%nat] "" 0 true)]>
        (providersMap registry).
Proof.
  refine (ParseProxyGroup_self_reference
            (groupConfig "g" "select" ["A"] ["P"; "g"] "" 0)
            endpoints registry
            (groupOptionOf "g" "select" ["A"] ["P"; "g"] "" 0)
            [1%nat] (NewHealthCheck [1%nat] "" 0 true) ["P"] []
            _ _ _ _ _ _ _ _ _ _ _).
  - run.
  - discriminate.
  - discriminate.
  - left. reflexivity.
  - discriminate.
  - run.
  - run.
  - run.
  - reflexivity.
  - reflexivity.
  - found.
Defined.

Lemma ParseProxyGroup_endpoint_frame_witness :
  ParseProxyGroup fallback_config endpoints registry
  = ParseProxyGroup fallback_config (<["C" := 3%nat]> endpoints) registry /\
  ParseProxyGroup fallback_config (<["C" := 3%nat]> endpoints) registry
  = (inr fallback_adapter,
     (ParseProxyGroup fallback_config endpoints registry).2).
Proof.
  destruct (ParseProxyGroup_endpoint_frame fallback_config endpoints
              (<["C" := 3%nat]> endpoints) registry fallback_option)
    as [Hsame Hgrows]; [run|].
  split.
  - apply Hsame. intros name Hname.
    apply list_elem_of_singleton in Hname. subst name. run.
  - apply Hgrows; [|run].
    apply insert_subseteq. run.
Defined.

Lemma ParseProxyGroup_provider_names_witness :
  name_of
    <$> [CompatibleProvider "g" [1%nat]
           (NewHealthCheck [1%nat] "http://x" 30 true);
         ProxyFilterProvider "P-in-g" 7%positive
           (NewHealthCheck [] "http://x" 30 true) (@None string);
         ProxyFilterProvider "R-in-g" 8%positive
           (NewHealthCheck [] "http://x" 30 true) None]
  = Some <$> ["g"; "P-in-g"; "R-in-g"] /\
  NoDup ["g"; "P-in-g"; "R-in-g"].
Proof.
  destruct (ParseProxyGroup_provider_names
              (groupConfig "g" "url-test" ["A"] ["P"; "R"] "http://x" 30)
              endpoints two_pools
              (groupOptionOf "g" "url-test" ["A"] ["P"; "R"] "http://x" 30)
              (URLTest
                 (groupOptionOf "g" "url-test" ["A"] ["P"; "R"] "http://x" 30)
                 [CompatibleProvider "g" [1%nat]
                    (NewHealthCheck [1%nat] "http://x" 30 true);
                  ProxyFilterProvider "P-in-g" 7%positive
                    (NewHealthCheck [] "http://x" 30 true) None;
                  ProxyFilterProvider "R-in-g" 8%positive
                    (NewHealthCheck [] "http://x" 30 true) None]
                 [])
              (ParseProxyGroup
                 (groupConfig "g" "url-test" ["A"] ["P"; "R"] "http://x" 30)
                 endpoints two_pools).2)
    as (names & Hnames & -> & Hnodup); [run | run |].
  split; [exact Hnames|].
  apply Hnodup. simpl. apply NoDup_cons. split.
  - intros Hin. apply list_elem_of_singleton in Hin. discriminate Hin.
  - apply NoDup_singleton.
Defined.

Lemma ParseProxyGroup_policies_witness :
  Forall (fun p =>
            exists hc,
              provider_healthCheck p = Some hc /\
              newHealthCheck (hc_proxies hc) fallback_option = inr hc /\
              match p with
              | ProxySetProvider _ => False
              | CompatibleProvider _ proxies _ => hc_proxies hc = proxies
              | ProxyFilterProvider _ _ _ _ => hc_proxies hc = []
              end)
    (adapter_providers fallback_adapter).
Proof.
  refine (ParseProxyGroup_policies fallback_config endpoints registry
            fallback_option fallback_adapter
            (ParseProxyGroup fallback_config endpoints registry).2 _ _);
    run.
Defined.

Lemma ParseProxyGroup_registry_locality_witness :
  (ParseProxyGroup fallback_config endpoints registry).1
  = (ParseProxyGroup fallback_config endpoints
       (ParseProxyGroup (groupConfig "h" "select" ["B"] ["P"] "" 0)
          endpoints registry).2).1.
Proof.
  refine (ParseProxyGroup_registry_locality fallback_config endpoints
            registry
            (ParseProxyGroup (groupConfig "h" "select" ["B"] ["P"] "" 0)
               endpoints registry).2
            fallback_option _ _ _).
  - run.
  - split; intros _; run.
  - intros name Hname.
    apply elem_of_cons in Hname. destruct Hname as [->|Hname]; [run|].
    apply list_elem_of_singleton in Hname. subst name. run.
Defined.
